(** * Constrained Anderson acceleration for logistic regression

    A shallow embedding of [CAA/logreg.py] ([solver_logreg]) and the
    properties of its acceleration subsystem: the cyclic iterate buffer,
    the residual and Gram matrices, the two coefficient solves, the radius
    schedule and the safeguard.  The last part, [Beyond the acceleration],
    is about the loop around it: its exits and exceptions, the histories
    [E] and [T], and the runs in which the acceleration has no effect.

    Numbers.  The program computes on IEEE doubles through numpy.  Here a
    double is a real number and every arithmetic operation is exact, so the
    statements below are about the algorithm, not about rounding.  Library
    routines that the program calls but does not define are collected in
    the record [numerics]; what is assumed of them is written as an
    explicit hypothesis of the theorem that needs it.

    Shapes.  numpy raises on operands whose shapes do not fit.  The
    operations below cut the longer operand instead; the program is read
    on inputs whose shapes fit, and a statement that depends on it says
    so.  The copy of a dense design to Fortran order changes no value and
    is left out, and so are the printed messages.

    State.  [w[:] = ...] and [Xw[:] = ...] write in place while
    [w = w_acc] and [Xw = Xw_acc] rebind the names; the buffer write
    copies.  No array is reachable under two names when it is written, so
    the state is a record of values. *)

From Stdlib Require Import Reals Lra Lia List Arith PeanoNat Bool.
Import ListNotations.

Open Scope R_scope.

(** ** Dense vectors and matrices *)

Definition vec := list R.

(** A matrix is the list of its rows.  The iterate buffer [last_K_w] and
    the residual matrix [R] are accessed by column in the program and are
    kept as the list of their columns. *)
Definition matrix := list vec.

Module Vec.

Fixpoint zip_with (f : R -> R -> R) (u v : vec) : vec :=
  match u, v with
  | a :: u', b :: v' => f a b :: zip_with f u' v'
  | _, _ => []
  end.

Definition zeros (n : nat) : vec := repeat 0 n.
Definition ones (n : nat) : vec := repeat 1 n.

Definition add : vec -> vec -> vec := zip_with Rplus.
Definition sub : vec -> vec -> vec := zip_with Rminus.
Definition mul : vec -> vec -> vec := zip_with Rmult.
Definition div : vec -> vec -> vec := zip_with Rdiv.
Definition scale (a : R) (v : vec) : vec := map (Rmult a) v.
Definition opp (v : vec) : vec := map Ropp v.

(** [v.sum()] *)
Definition sum (v : vec) : R := fold_right Rplus 0 v.

Definition dot (u v : vec) : R := sum (mul u v).

(** [numpy.linalg.norm] of a one-dimensional array *)
Definition norm (v : vec) : R := sqrt (dot v v).

(** [X @ w], [X] given by its rows *)
Definition matvec (X : matrix) (v : vec) : vec := map (fun r => dot r v) X.

(** [A @ c] for [A] given by its columns, each of length [n]; read on a
    list of rows it is [A.T @ c] *)
Fixpoint lincomb (n : nat) (cols : matrix) (c : vec) : vec :=
  match cols, c with
  | col :: cols', a :: c' => add (scale a col) (lincomb n cols' c')
  | _, _ => zeros n
  end.

(** [np.zeros(K)] with [c[-1] = 1] *)
Definition onehot_last (K : nat) : vec := zeros (K - 1) ++ [1].

(** [np.zeros(K)] with [c[0] = -1] *)
Definition minus_onehot_first (K : nat) : vec := (-1) :: zeros (K - 1).

(** [A[:, j] = v] on a list of columns; out of range is not reached in
    the program (numpy would raise) and leaves the list as it is *)
Fixpoint set_col (j : nat) (v : vec) (cols : matrix) : matrix :=
  match cols, j with
  | [], _ => []
  | _ :: cols', O => v :: cols'
  | col :: cols', S j' => col :: set_col j' v cols'
  end.

Definition col (j : nat) (cols : matrix) : vec := nth j cols [].

End Vec.

(** ** The residual and Gram matrices *)

(** [for k in range(K): R[:, k] = last_K_w[:, k + 1] - last_K_w[:, k]] *)
Definition residuals (K : nat) (last_K_w : matrix) : matrix :=
  map (fun k => Vec.sub (Vec.col (S k) last_K_w) (Vec.col k last_K_w))
      (seq 0 K).

(** [R.T @ R] *)
Definition gram (Rm : matrix) : matrix :=
  map (fun ri => map (fun rj => Vec.dot ri rj) Rm) Rm.

(** [M + a * np.eye(M.shape[0])] *)
Definition add_diag (a : R) (M : matrix) : matrix :=
  map (fun ir : nat * vec =>
         map (fun jx : nat * R =>
                if Nat.eqb (fst ir) (fst jx) then snd jx + a else snd jx)
             (combine (seq 0 (length (snd ir))) (snd ir)))
      (combine (seq 0 (length M)) M).

(** [M[i, j]] *)
Definition entry (i j : nat) (M : matrix) : R := nth j (nth i M []) 0.

(** The buffer after the writes [last_K_w[:, i % (K + 1)] = ws i] of the
    passes [i = 0 .. n-1]. *)
Fixpoint buffer_after (K : nat) (ws : nat -> vec) (n : nat) (buf0 : matrix)
  : matrix :=
  match n with
  | O => buf0
  | S n' => Vec.set_col (n' mod (K + 1)) (ws n') (buffer_after K ws n' buf0)
  end.

(** A square system of order [k] with at most one solution for each right
    hand side. *)
Definition nonsingular (k : nat) (G : matrix) : Prop :=
  forall u v : vec,
    length u = k -> length v = k ->
    Vec.matvec G u = Vec.matvec G v -> u = v.

(** [z / z.sum()] *)
Definition normalize (z : vec) : vec := map (fun zi => zi / Vec.sum z) z.

(** [sigmoid], lines 13-15: [1 / (1. + np.exp(- x))] *)
Definition sigmoid (x : R) : R := 1 / (1 + exp (- x)).

(** The passes [it < n] with [it % f == 0]: those that record a metric. *)
Definition metric_passes (f n : nat) : list nat :=
  filter (fun it => Nat.eqb (it mod f) 0) (seq 0 n).

(** A history whose entries never decrease. *)
Definition nondecreasing (l : list R) : Prop :=
  forall i j, (i <= j < length l)%nat -> nth i l 0 <= nth j l 0.

(** ** Inputs, library routines, solver state *)

Record design := {
  is_sparse : bool;       (* [sparse.issparse(X)] *)
  n_features : nat;       (* [X.shape[1]] *)
  rows : matrix           (* the samples *)
}.

Record config := {
  rho : R;
  max_iter : nat;
  max_time : R;
  tol : R;
  f_grad : nat;
  K : nat;
  use_acc : bool;
  C0 : option R;
  adaptive_C : bool;
  reg_amount : option R;
  verbose : bool
}.

(** What the program imports.  [None] stands for a raised
    [numpy.linalg.LinAlgError]. *)
Record numerics := {
  (* [numpy.linalg.norm(M, ord=2)], the largest singular value *)
  norm_ord2 : matrix -> R;
  (* [scipy.sparse.linalg.svds(X, k=1)[1][0]] *)
  svds_top : matrix -> R;
  (* [numpy.linalg.solve] *)
  linalg_solve : matrix -> vec -> option vec;
  (* [CAA.utils.FWsolver.FW(G, c, tol, C, max_iter)], returning
     [(c, gap, border)]; the radius is whatever Python value [C] holds *)
  FW : matrix -> vec -> R -> option R -> nat -> option (vec * R * bool);
  (* the successive readings of [time.time()] *)
  clock : nat -> R
}.

Record state := {
  w : vec;
  Xw : vec;
  c : vec;
  E : list R;
  T : list R;
  border : bool;
  C_prev : option R;
  last_K_w : matrix;
  reads : nat             (* readings of the clock taken so far *)
}.

(** [time.time()] never goes back. *)
Definition clock_monotone (num : numerics) : Prop :=
  forall i j, (i <= j)%nat -> clock num i <= clock num j.

(** The vectors of a state have the length [n] of an iterate. *)
Definition shaped (n : nat) (st : state) : Prop :=
  length (w st) = n /\ Forall (fun col => length col = n) (last_K_w st).

Inductive py_error := IndexError | ZeroDivisionError.

Inductive step_result :=
| Next (st : state)       (* the iteration ran to its end *)
| Break (st : state)      (* [break] *)
| Raise (e : py_error).

Section Solver.

Variable num : numerics.
Variable X : design.
Variable y : vec.
Variable cfg : config.

(** [norm(X, ord=2) ** 2 / 4 + rho], or the same from [svds] *)
Definition Lipschitz : R :=
  if is_sparse X
  then (svds_top num (rows X)) ^ 2 / 4 + rho cfg
  else (norm_ord2 num (rows X)) ^ 2 / 4 + rho cfg.

(** [-X.T @ (y / (1. + np.exp(y * Xw))) + rho*w]; the sign is taken after
    the product, which gives the same vector *)
Definition gradient (Xw_ w_ : vec) : vec :=
  Vec.add
    (Vec.opp
       (Vec.lincomb (n_features X) (rows X)
          (Vec.div y (map (fun t => 1 + exp t) (Vec.mul y Xw_)))))
    (Vec.scale (rho cfg) w_).

(** The gradient norm at a point, with the prediction recomputed. *)
Definition grad_norm_at (w_ : vec) : R :=
  Vec.norm (gradient (Vec.matvec (rows X) w_) w_).

(** [w - 1/L*grad_w] *)
Definition descent (w_ grad_w : vec) : vec :=
  Vec.sub w_ (Vec.scale (1 / Lipschitz) grad_w).

(** *** The mixing event, lines 122-160 *)

(** [RTR], after the optional [RTR += reg_amount * norm(RTR, ord=2) * eye] *)
Definition gram_matrix (buf : matrix) : matrix :=
  let RTR := gram (residuals (K cfg) buf) in
  match reg_amount cfg with
  | Some r => add_diag (r * norm_ord2 num RTR) RTR
  | None => RTR
  end.

(** [C = C0], then under [adaptive_C]
    [C *= (norm_grad/L)**(-0.49)*it/K; C = max(C, C0)].  [Rpower] is the
    power of the program for a positive base [norm_grad/L] only: at a
    gradient that is exactly zero numpy's power is infinite, and not a
    number for a negative [L], where [Rpower] is one.  The statements on
    the value of the radius are made for a positive base and say so. *)
Definition radius_candidate (c0 norm_grad : R) (it : nat) : R :=
  if adaptive_C cfg
  then Rmax (c0 * (Rpower (norm_grad / Lipschitz) (- (49 / 100))
                   * INR it / INR (K cfg))) c0
  else c0.

(** [if not border: C = C_prev else: C_prev = C]; the pair is the radius
    handed to [FW] and the new [C_prev] *)
Definition radius_continuation (st : state) (cand : R)
  : option R * option R :=
  if border st then (Some cand, Some cand) else (C_prev st, C_prev st).

(** [1e-12*norm(R[:, 0])] *)
Definition fw_tolerance (buf : matrix) : R :=
  / 10 ^ 12 * Vec.norm (Vec.col 0 (residuals (K cfg) buf)).

(** Lines 129-153, the coefficient solve: the new [c], [border] and
    [C_prev].  An exception leaves every variable as the statements
    before the failing call set it. *)
Definition coefficients (it : nat) (norm_grad : R) (st : state)
  : vec * bool * option R :=
  let G := gram_matrix (last_K_w st) in
  match C0 cfg with
  | Some c0 =>
      let '(C, C_prev') :=
        radius_continuation st (radius_candidate c0 norm_grad it) in
      let c_start := Vec.onehot_last (K cfg) in
      match FW num G c_start (fw_tolerance (last_K_w st)) C 5000 with
      | Some (c', _, border') => (c', border', C_prev')
      | None => (c_start, border st, C_prev')
      end
  | None =>
      match linalg_solve num G (Vec.ones (K cfg)) with
      | Some z => (normalize z, border st, C_prev st)
      | None => (c st, border st, C_prev st)
      end
  end.

(** [last_K_w[:, :-1] @ c] *)
Definition extrapolate (buf : matrix) (c_ : vec) : vec :=
  Vec.lincomb (n_features X) (removelast buf) c_.

(** The whole event.  [st] is the state after the descent step and the
    buffer write of iteration [it]; [grad_w] is the gradient that step
    used. *)
Definition mixing (it : nat) (grad_w : vec) (st : state) : state :=
  let norm_grad := Vec.norm grad_w in
  let '(c', border', C_prev') := coefficients it norm_grad st in
  let w_acc := extrapolate (last_K_w st) c' in
  let Xw_acc := Vec.matvec (rows X) w_acc in
  let norm_grad_acc := Vec.norm (gradient Xw_acc w_acc) in
  let accept := if Rlt_dec norm_grad_acc norm_grad then true else false in
  {| w := if accept then w_acc else w st;
     Xw := if accept then Xw_acc else Xw st;
     c := c';
     E := E st;
     T := T st;
     border := border';
     C_prev := C_prev';
     last_K_w := last_K_w st;
     reads := reads st |}.

(** *** One pass through the loop body, lines 102-160 *)

Definition start_time : R := clock num 0.

(** Lines 105-114: the metric log and the convergence test; the flag is
    the early exit.  The messages printed here and under [verbose] are
    not part of the state. *)
Definition log_metric (it : nat) (grad_w : vec) (st : state)
  : state * bool :=
  if Nat.eqb (it mod f_grad cfg) 0
  then
    let norm_grad := Vec.norm grad_w in
    let st' :=
      {| w := w st; Xw := Xw st; c := c st;
         E := E st ++ [norm_grad];
         T := T st ++ [clock num (reads st) - start_time];
         border := border st; C_prev := C_prev st;
         last_K_w := last_K_w st;
         reads := S (reads st) |} in
    (st', if Rlt_dec norm_grad (tol cfg) then true else false)
  else (st, false).

(** Lines 116-120: the descent step, the cached prediction and the
    buffer write. *)
Definition step_and_push (it : nat) (grad_w : vec) (st : state) : state :=
  let w' := descent (w st) grad_w in
  {| w := w';
     Xw := Vec.matvec (rows X) w';
     c := c st; E := E st; T := T st;
     border := border st; C_prev := C_prev st;
     last_K_w :=
       if use_acc cfg
       then Vec.set_col (it mod (K cfg + 1)) w' (last_K_w st)
       else last_K_w st;
     reads := reads st |}.

Definition tick (st : state) : state :=
  {| w := w st; Xw := Xw st; c := c st; E := E st; T := T st;
     border := border st; C_prev := C_prev st;
     last_K_w := last_K_w st; reads := S (reads st) |}.

Definition body (it : nat) (st : state) : step_result :=
  let now := clock num (reads st) in
  let st0 := tick st in
  if Rlt_dec (max_time cfg) (now - start_time) then Break st0
  else
    let grad_w := gradient (Xw st0) (w st0) in
    match f_grad cfg with
    | O => Raise ZeroDivisionError
    | S _ =>
        let '(st1, early_exit) := log_metric it grad_w st0 in
        if early_exit then Break st1
        else
          let st2 := step_and_push it grad_w st1 in
          if use_acc cfg && Nat.eqb (it mod (K cfg + 1)) (K cfg)
          then Next (mixing it grad_w st2)
          else Next st2
    end.

(** The state a pass ends in when it takes neither [break] nor raises:
    the body with its exits removed. *)
Definition iteration (it : nat) (st : state) : state :=
  let st0 := tick st in
  let grad_w := gradient (Xw st0) (w st0) in
  let st1 := fst (log_metric it grad_w st0) in
  let st2 := step_and_push it grad_w st1 in
  if use_acc cfg && Nat.eqb (it mod (K cfg + 1)) (K cfg)
  then mixing it grad_w st2
  else st2.

(** [for it in range(max_iter)], as a fold over the remaining indices *)
Fixpoint loop (its : list nat) (st : state) : step_result :=
  match its with
  | [] => Next st
  | it :: rest =>
      match body it st with
      | Next st' => loop rest st'
      | other => other
      end
  end.

(** Lines 77-100 *)
Definition init : state :=
  {| w := Vec.zeros (n_features X);
     Xw := Vec.zeros (length y);
     c := Vec.minus_onehot_first (K cfg);
     E := [];
     T := [];
     border := true;
     C_prev := C0 cfg;
     last_K_w :=
       if use_acc cfg
       then repeat (Vec.zeros (n_features X)) (K cfg + 1)
       else [];
     reads := 1 |}.

(** The state the loop leaves, or the exception that ends the call:
    [c[0] = -1] raises on an empty array. *)
Definition run : state + py_error :=
  match K cfg with
  | O => inr IndexError
  | S _ =>
      match loop (seq 0 (max_iter cfg)) init with
      | Next st | Break st => inl st
      | Raise e => inr e
      end
  end.

(** The state after [n] passes that all ran to their end. *)
Fixpoint state_after (n : nat) : state :=
  match n with
  | O => init
  | S n' => iteration n' (state_after n')
  end.

(** The plain gradient-descent iterate of the pass that starts in [st]:
    what line 116 computes and line 120 writes to the buffer. *)
Definition plain_iterate (st : state) : vec :=
  descent (w st) (gradient (Xw st) (w st)).

(** [return w, E, T] *)
Definition solver_logreg : (vec * list R * list R) + py_error :=
  match run with
  | inl st => inl (w st, E st, T st)
  | inr e => inr e
  end.

End Solver.

(** ** The library routines on small systems

    Concrete routines on which the solver can be run.  In exact
    arithmetic they are what numpy computes on the shapes used below:
    designs with a single feature, and Gram matrices of order one or
    two. *)

(** The Frobenius norm.  On a matrix of rank at most one (a single
    column, or the Gram matrix of scalar residuals) it is the largest
    singular value. *)
Definition frobenius (M : matrix) : R :=
  sqrt (Vec.sum (map (fun r => Vec.dot r r) M)).

(** Cramer's rule up to order two; [None] when the determinant is zero. *)
Definition solve_small (G : matrix) (b : vec) : option vec :=
  match G, b with
  | [[g]], [b0] =>
      if Req_dec_T g 0 then None else Some [b0 / g]
  | [[g00; g01]; [g10; g11]], [b0; b1] =>
      let d := g00 * g11 - g01 * g10 in
      if Req_dec_T d 0 then None
      else Some [(b0 * g11 - g01 * b1) / d; (g00 * b1 - b0 * g10) / d]
  | _, _ => None
  end.

(** A constrained solve that breaks down. *)
Definition FW_raises
  : matrix -> vec -> R -> option R -> nat -> option (vec * R * bool) :=
  fun _ _ _ _ _ => None.

(** A constrained solve that stops at its start point.  With [K = 1] the
    feasible set is that single point. *)
Definition FW_stays
  : matrix -> vec -> R -> option R -> nat -> option (vec * R * bool) :=
  fun _ c_start _ _ _ => Some (c_start, 0, true).

(** Modelled from the spec: [CAA/utils/FWsolver.py] is not among the
    sources.  The specification has the constrained solver minimise over
    a polytope inside the hyperplane [sum(c) = 1], starting from a point
    of it: what it returns sums to one. *)
Definition affine_solver
  (fw : matrix -> vec -> R -> option R -> nat -> option (vec * R * bool))
  : Prop :=
  forall G c_start t C n c1 gap b,
    Vec.sum c_start = 1 ->
    fw G c_start t C n = Some (c1, gap, b) ->
    Vec.sum c1 = 1.

Definition small_numerics
  (fw : matrix -> vec -> R -> option R -> nat -> option (vec * R * bool))
  : numerics :=
  {| norm_ord2 := frobenius;
     svds_top := frobenius;
     linalg_solve := solve_small;
     FW := fw;
     clock := fun _ => 0 |}.

(** The size of the gradient of the loss of the sample [2] with label
    [+1], at the prediction [p]. *)
Definition slope (p : R) : R := 2 / (1 + exp p).

(** One sample [x] with label [+1]. *)
Definition one_sample (x : R) : design :=
  {| is_sparse := false; n_features := 1; rows := [[x]] |}.

(** Two samples at the same point with opposite labels: the gradient of
    the loss vanishes at the origin. *)
Definition balanced_design : design :=
  {| is_sparse := false; n_features := 1; rows := [[1]; [1]] |}.
Definition balanced_labels : vec := [1; -1].

(** Run to [max_iter]: no tolerance, a generous time budget, a metric at
    every step. *)
Definition plain_config (k iters : nat) : config :=
  {| rho := 0; max_iter := iters; max_time := 100; tol := 0; f_grad := 1;
     K := k; use_acc := true; C0 := None; adaptive_C := false;
     reg_amount := None; verbose := false |}.

Definition constrained_config (k iters : nat) (c0 : R) (adaptive : bool)
  : config :=
  {| rho := 0; max_iter := iters; max_time := 100; tol := 0; f_grad := 1;
     K := k; use_acc := true; C0 := Some c0; adaptive_C := adaptive;
     reg_amount := None; verbose := false |}.

Definition regularized_config (k iters : nat) (c0 : option R) (r : R)
  : config :=
  {| rho := 0; max_iter := iters; max_time := 100; tol := 0; f_grad := 1;
     K := k; use_acc := true; C0 := c0; adaptive_C := false;
     reg_amount := Some r; verbose := false |}.

(** Plain gradient descent: [use_acc] left at its default. *)
Definition descent_config (iters : nat) : config :=
  {| rho := 0; max_iter := iters; max_time := 100; tol := 0; f_grad := 1;
     K := 5; use_acc := false; C0 := None; adaptive_C := false;
     reg_amount := None; verbose := false |}.

(** * Properties *)

(** ** What one pass through the loop does *)

Section Body.

Variable num : numerics.
Variable X : design.
Variable y : vec.
Variable cfg : config.

Notation "X@ v" := (Vec.matvec (rows X) v) (at level 30).

Lemma log_metric_keeps it g st :
  let st' := fst (log_metric num cfg it g st) in
  w st' = w st /\ Xw st' = Xw st /\ c st' = c st /\
  border st' = border st /\ C_prev st' = C_prev st /\
  last_K_w st' = last_K_w st.
Proof.
  unfold log_metric.
  destruct (Nat.eqb (it mod f_grad cfg) 0); cbn; repeat split; reflexivity.
Qed.

Lemma body_cases it st :
  body num X y cfg it st = Next (iteration num X y cfg it st) \/
  (exists st', body num X y cfg it st = Break st' /\
               w st' = w st /\ Xw st' = Xw st /\ c st' = c st /\
               last_K_w st' = last_K_w st) \/
  (f_grad cfg = 0%nat /\ body num X y cfg it st = Raise ZeroDivisionError).
Proof.
  unfold body, iteration.
  destruct (Rlt_dec (max_time cfg) (clock num (reads st) - start_time num)).
  - right; left. exists (tick st). repeat split; reflexivity.
  - destruct (f_grad cfg) eqn:Hf.
    + right; right. split; reflexivity.
    + pose proof (log_metric_keeps it
                    (gradient X y cfg (Xw (tick st)) (w (tick st)))
                    (tick st)) as Hk.
      destruct (log_metric num cfg it
                  (gradient X y cfg (Xw (tick st)) (w (tick st)))
                  (tick st)) as [st1 early] eqn:Hlog.
      cbn [fst] in Hk. destruct Hk as (Hw & HXw & Hc & _ & _ & Hbuf).
      destruct early.
      * right; left. exists st1. repeat split; assumption.
      * left. cbn [fst]. destruct (use_acc cfg && _); reflexivity.
Qed.

Lemma body_next it st st' :
  body num X y cfg it st = Next st' -> st' = iteration num X y cfg it st.
Proof.
  intros H. destruct (body_cases it st) as [Hn | [(s & Hb & _) | (_ & Hr)]];
    congruence.
Qed.

(** With no tolerance to reach and a clock that stands still, every
    pass runs to its end. *)
Lemma body_runs it st :
  tol cfg <= 0 -> f_grad cfg <> 0%nat ->
  ~ max_time cfg < clock num (reads st) - start_time num ->
  body num X y cfg it st = Next (iteration num X y cfg it st).
Proof.
  intros Htol Hf Htime. unfold body, iteration.
  destruct (Rlt_dec _ _) as [Hlt | _]; [contradiction |].
  destruct (f_grad cfg) eqn:Ef; [congruence |].
  unfold log_metric.
  destruct (Nat.eqb (it mod f_grad cfg) 0); cbn [fst];
    [| destruct (use_acc cfg && _); reflexivity].
  destruct (Rlt_dec _ (tol cfg)) as [Hlt | _];
    [| destruct (use_acc cfg && _); reflexivity].
  exfalso.
  pose proof (sqrt_pos (Vec.dot (gradient X y cfg (Xw (tick st)) (w (tick st)))
                                (gradient X y cfg (Xw (tick st)) (w (tick st))))).
  unfold Vec.norm in Hlt. lra.
Qed.

(** *** Projections of the mixing event *)

Lemma mixing_keeps_buffer it g st :
  last_K_w (mixing num X y cfg it g st) = last_K_w st.
Proof.
  unfold mixing.
  destruct (coefficients num X cfg it (Vec.norm g) st) as [[c' b'] C'].
  reflexivity.
Qed.

Lemma mixing_coefficients it g st :
  (c (mixing num X y cfg it g st), border (mixing num X y cfg it g st),
   C_prev (mixing num X y cfg it g st))
  = coefficients num X cfg it (Vec.norm g) st.
Proof.
  unfold mixing.
  destruct (coefficients num X cfg it (Vec.norm g) st) as [[c' b'] C'].
  reflexivity.
Qed.

(** The safeguard, lines 154-160, in terms of the state it leaves. *)
Lemma mixing_safeguard it g st :
  let st' := mixing num X y cfg it g st in
  let w_acc := extrapolate X (last_K_w st) (c st') in
  let norm_grad_acc := Vec.norm (gradient X y cfg (X@ w_acc) w_acc) in
  (norm_grad_acc < Vec.norm g -> w st' = w_acc /\ Xw st' = X@ w_acc) /\
  (~ norm_grad_acc < Vec.norm g -> w st' = w st /\ Xw st' = Xw st).
Proof.
  unfold mixing.
  destruct (coefficients num X cfg it (Vec.norm g) st) as [[c' b'] C'].
  cbn [w Xw c].
  destruct (Rlt_dec _ _) as [Hlt | Hge]; split; intros H;
    try contradiction; split; reflexivity.
Qed.

Lemma mixing_outcome it g st :
  let st' := mixing num X y cfg it g st in
  let w_acc := extrapolate X (last_K_w st) (c st') in
  (w st' = w_acc /\ Xw st' = X@ w_acc) \/
  (w st' = w st /\ Xw st' = Xw st).
Proof.
  intros st' w_acc.
  destruct (mixing_safeguard it g st) as [Hacc Hrej].
  fold st' in Hacc, Hrej. fold w_acc in Hacc, Hrej.
  destruct (Rlt_dec (Vec.norm (gradient X y cfg (X@ w_acc) w_acc))
              (Vec.norm g)) as [Hlt | Hge].
  - left. exact (Hacc Hlt).
  - right. exact (Hrej Hge).
Qed.

Lemma step_and_push_spec it g st :
  let st' := step_and_push num X cfg it g st in
  w st' = descent num X cfg (w st) g /\
  Xw st' = X@ (w st') /\
  c st' = c st /\ border st' = border st /\ C_prev st' = C_prev st /\
  last_K_w st' =
    (if use_acc cfg
     then Vec.set_col (it mod (K cfg + 1)) (w st') (last_K_w st)
     else last_K_w st).
Proof. cbn. repeat split; reflexivity. Qed.

End Body.

(** ** The cached prediction *)

Section Cache.

Variable num : numerics.
Variable X : design.
Variable y : vec.
Variable cfg : config.

Lemma iteration_cache it st :
  Xw (iteration num X y cfg it st)
  = Vec.matvec (rows X) (w (iteration num X y cfg it st)).
Proof.
  unfold iteration.
  set (g := gradient X y cfg (Xw (tick st)) (w (tick st))).
  set (st2 := step_and_push num X cfg it g _).
  assert (H2 : Xw st2 = Vec.matvec (rows X) (w st2)) by reflexivity.
  destruct (use_acc cfg && _); [| exact H2].
  destruct (mixing_safeguard num X y cfg it g st2) as [Hacc Hrej].
  destruct (Rlt_dec
              (Vec.norm
                 (gradient X y cfg
                    (Vec.matvec (rows X)
                       (extrapolate X (last_K_w st2)
                          (c (mixing num X y cfg it g st2))))
                    (extrapolate X (last_K_w st2)
                       (c (mixing num X y cfg it g st2)))))
              (Vec.norm g)) as [Hlt | Hge].
  - destruct (Hacc Hlt) as [-> ->]. reflexivity.
  - destruct (Hrej Hge) as [-> ->]. exact H2.
Qed.

(** The product of the design with the zero vector, as [init] caches
    it. *)
Lemma dot_zeros_r r n : Vec.dot r (Vec.zeros n) = 0.
Proof.
  unfold Vec.dot, Vec.mul, Vec.zeros.
  revert n; induction r as [| a r IH]; intros [| n]; cbn; try reflexivity.
  rewrite IH. lra.
Qed.

Lemma matvec_zeros M n :
  Vec.matvec M (Vec.zeros n) = Vec.zeros (length M).
Proof.
  unfold Vec.matvec. induction M as [| r M IH]; cbn; [reflexivity |].
  rewrite dot_zeros_r. f_equal. exact IH.
Qed.

(** Along the loop the cache stays the product it stands for. *)
Lemma loop_cache its st :
  Xw st = Vec.matvec (rows X) (w st) ->
  match loop num X y cfg its st with
  | Next st' | Break st' => Xw st' = Vec.matvec (rows X) (w st')
  | Raise _ => True
  end.
Proof.
  revert st. induction its as [| it its IH]; intros st Hst; cbn.
  - exact Hst.
  - destruct (body_cases num X y cfg it st)
      as [Hn | [(s & Hb & Hw & HXw & _) | (_ & Hr)]].
    + rewrite Hn. apply IH. apply iteration_cache.
    + rewrite Hb. congruence.
    + rewrite Hr. exact I.
Qed.

(** With one label per sample the state a call ends in has the cache in
    order, however the loop is left. *)
Lemma run_cache :
  length y = length (rows X) ->
  match run num X y cfg with
  | inl st => Xw st = Vec.matvec (rows X) (w st)
  | inr _ => True
  end.
Proof.
  intros Hy. unfold run. destruct (K cfg); [exact I |].
  assert (H0 : Xw (init X y cfg) = Vec.matvec (rows X) (w (init X y cfg)))
    by (cbn; rewrite matvec_zeros, Hy; reflexivity).
  pose proof (loop_cache (seq 0 (max_iter cfg)) (init X y cfg) H0) as H.
  destruct (loop num X y cfg (seq 0 (max_iter cfg)) (init X y cfg));
    assumption.
Qed.

End Cache.

(** C10.  At the end of every pass through the loop body the cached
    prediction [Xw] is [X @ w] for the current [w]: the descent step sets
    the two together, the safeguard either replaces both by [w_acc] and
    [X @ w_acc] or leaves both, and a pass that ends in [break] has not
    touched them. *)
Theorem prediction_cache_consistent
  (num : numerics) (X : design) (y : vec) (cfg : config)
  (it : nat) (st : state) :
  (forall g s,
      let s' := step_and_push num X cfg it g s in
      w s' = descent num X cfg (w s) g /\
      Xw s' = Vec.matvec (rows X) (w s')) /\
  (forall g s,
      let s' := mixing num X y cfg it g s in
      let w_acc := extrapolate X (last_K_w s) (c s') in
      (w s' = w_acc /\ Xw s' = Vec.matvec (rows X) w_acc) \/
      (w s' = w s /\ Xw s' = Xw s)) /\
  match body num X y cfg it st with
  | Next st' => Xw st' = Vec.matvec (rows X) (w st')
  | Break st' => w st' = w st /\ Xw st' = Xw st
  | Raise _ => True
  end.
Proof.
  split; [| split].
  - intros g s. cbn. split; reflexivity.
  - intros g s. apply mixing_outcome.
  - destruct (body_cases num X y cfg it st)
      as [Hn | [(s & Hb & Hw & HXw & _) | (_ & Hr)]].
    + rewrite Hn. apply iteration_cache.
    + rewrite Hb. split; assumption.
    + rewrite Hr. exact I.
Qed.

(** ** Evaluating the solver on one feature *)

(** What [solve_small] returns solves the system. *)
Lemma solve_small_sound G b z :
  solve_small G b = Some z -> Vec.matvec G z = b.
Proof.
  unfold solve_small.
  destruct G as [| [| g00 [| g01 [| ? ?]]] [| [| g10 [| g11 [| ? ?]]] [| ? ?]]];
    destruct b as [| b0 [| b1 [| ? ?]]]; try discriminate.
  - destruct (Req_dec_T g00 0) as [| Hne]; [discriminate |].
    intros H. injection H as <-.
    unfold Vec.matvec, Vec.dot. cbn. f_equal. field. exact Hne.
  - destruct (Req_dec_T (g00 * g11 - g01 * g10) 0) as [| Hne];
      [discriminate |].
    intros H. injection H as <-.
    unfold Vec.matvec, Vec.dot. cbn. f_equal; [| f_equal]; field; exact Hne.
Qed.

(** On the Gram matrix of two scalar residuals [a] and [b] the Frobenius
    norm is [a^2 + b^2], and that is its largest singular value: no
    vector is stretched by more, and [(a, b)] is stretched by as much. *)
Lemma frobenius_rank_one a b :
  let M := [[a * a; a * b]; [a * b; b * b]] in
  frobenius M = a * a + b * b /\
  (forall u0 u1,
      Vec.dot (Vec.matvec M [u0; u1]) (Vec.matvec M [u0; u1])
      <= (a * a + b * b) ^ 2 * Vec.dot [u0; u1] [u0; u1]) /\
  Vec.dot (Vec.matvec M [a; b]) (Vec.matvec M [a; b])
  = (a * a + b * b) ^ 2 * Vec.dot [a; b] [a; b].
Proof.
  intros M. split; [| split].
  - unfold M, frobenius, Vec.dot. cbn.
    replace (a * a * (a * a) + (a * b * (a * b) + 0) +
             (a * b * (a * b) + (b * b * (b * b) + 0) + 0))
      with ((a * a + b * b) * (a * a + b * b)) by ring.
    apply sqrt_square. nra.
  - intros u0 u1. unfold M, Vec.matvec, Vec.dot. cbn.
    pose proof (Rle_0_sqr (a * u1 - b * u0)) as Hs. unfold Rsqr in Hs.
    pose proof (Rle_0_sqr a) as Ha. unfold Rsqr in Ha.
    pose proof (Rle_0_sqr b) as Hb. unfold Rsqr in Hb.
    assert (H : 0 <= (a * a + b * b) * ((a * u1 - b * u0) * (a * u1 - b * u0)))
      by (apply Rmult_le_pos; lra).
    apply Rminus_le.
    match goal with
    | |- ?l - ?r <= 0 =>
        replace (l - r)
          with (- ((a * a + b * b) * ((a * u1 - b * u0) * (a * u1 - b * u0))))
          by ring
    end.
    lra.
  - unfold M, Vec.matvec, Vec.dot. cbn. ring.
Qed.

Lemma norm_1d v : Vec.norm [v] = Rabs v.
Proof.
  unfold Vec.norm, Vec.dot, Vec.mul. cbn.
  replace (v * v + 0) with (Rsqr v) by (unfold Rsqr; ring).
  apply sqrt_Rsqr_abs.
Qed.

Lemma frobenius_column x : 0 <= x -> frobenius [[x]] = x.
Proof.
  intros Hx. unfold frobenius, Vec.dot, Vec.mul. cbn.
  replace (x * x + 0 + 0) with (x * x) by ring.
  apply sqrt_square; exact Hx.
Qed.

Lemma Lipschitz_one_sample fw x cfg :
  0 <= x -> rho cfg = 0 ->
  Lipschitz (small_numerics fw) (one_sample x) cfg = x * x / 4.
Proof.
  intros Hx Hrho. unfold Lipschitz. cbn [is_sparse one_sample norm_ord2
                                          small_numerics rows].
  rewrite frobenius_column, Hrho by exact Hx. field.
Qed.

(** The gradient of the loss of one sample [x] with label [+1], no
    penalty. *)
Lemma gradient_one_sample x cfg p q :
  rho cfg = 0 ->
  gradient (one_sample x) [1] cfg [p] [q] = [- (x / (1 + exp p))].
Proof.
  intros Hrho. unfold gradient. cbn. rewrite Hrho.
  f_equal. replace (1 * p) with p by ring. field.
  pose proof (exp_pos p). lra.
Qed.

(** ** The radius schedule *)

(** C6.  At a mixing event with a radius bound [C0] and [adaptive_C],
    where the gradient does not vanish and [L] is positive, the
    candidate radius is [C0 * (norm_grad/L)^(-0.49) * it/K] floored at
    [C0].  When the flag left by the last constrained solve says it did
    not end on the boundary, the solve is given the stored [C_prev]
    instead and [C_prev] stays; otherwise the solve is given the candidate
    and the candidate becomes [C_prev].  The flag is the one the solve
    returns, and a failed solve leaves it. *)
Theorem radius_schedule
  (num : numerics) (X : design) (y : vec) (cfg : config)
  (it : nat) (g : vec) (st : state) (c0 : R) :
  C0 cfg = Some c0 -> adaptive_C cfg = true ->
  0 < Vec.norm g / Lipschitz num X cfg ->
  let cand :=
    Rmax (c0 * (Rpower (Vec.norm g / Lipschitz num X cfg) (- (49 / 100))
                * INR it / INR (K cfg))) c0 in
  let C := if border st then Some cand else C_prev st in
  let st' := mixing num X y cfg it g st in
  c0 <= cand /\
  C_prev st' = C /\
  (c st', border st') =
    match FW num (gram_matrix num cfg (last_K_w st))
             (Vec.onehot_last (K cfg)) (fw_tolerance cfg (last_K_w st))
             C 5000 with
    | Some (c', _, border') => (c', border')
    | None => (Vec.onehot_last (K cfg), border st)
    end.
Proof.
  intros HC0 Had _ cand C st'.
  pose proof (mixing_coefficients num X y cfg it g st) as Hm.
  fold st' in Hm.
  unfold coefficients in Hm. rewrite HC0 in Hm.
  unfold radius_continuation, radius_candidate in Hm. rewrite Had in Hm.
  fold cand in Hm.
  split; [apply Rmax_r |].
  unfold C. destruct (border st) eqn:Hb;
    destruct (FW num _ _ _ _ _) as [[[c1 gap] b1] |];
    inversion Hm; subst; split; reflexivity.
Qed.

(** A gradient of norm [2] on the sample [2], where [L = 1]. *)
Lemma base_sample_2 fw cfg :
  rho cfg = 0 ->
  Vec.norm [-2] / Lipschitz (small_numerics fw) (one_sample 2) cfg = 2.
Proof.
  intros Hrho.
  rewrite norm_1d, Lipschitz_one_sample by (try exact Hrho; lra).
  rewrite Rabs_left by lra. field.
Qed.

Lemma base_sample_2_pos fw cfg :
  rho cfg = 0 ->
  0 < Vec.norm [-2] / Lipschitz (small_numerics fw) (one_sample 2) cfg.
Proof. intros Hrho. rewrite base_sample_2 by exact Hrho. lra. Qed.

(** The schedule in pass [3] of a run with [K = 1], on a gradient of norm
    [2]: from a state whose last solve ended on the boundary, and from one
    whose last solve ended inside with the radius [5]. *)
Lemma radius_schedule_witness :
  let num := small_numerics FW_stays in
  let X := one_sample 2 in
  let cfg := constrained_config 1 4 1 true in
  let cand :=
    Rmax (1 * (Rpower (Vec.norm [-2] / Lipschitz num X cfg) (- (49 / 100))
               * INR 3 / INR 1)) 1 in
  let on_boundary :=
    {| w := [1]; Xw := [2]; c := [1]; E := []; T := [];
       border := true; C_prev := Some 1;
       last_K_w := [[1]; [2]]; reads := 1 |} in
  let inside :=
    {| w := [1]; Xw := [2]; c := [1]; E := []; T := [];
       border := false; C_prev := Some 5;
       last_K_w := [[1]; [2]]; reads := 1 |} in
  Vec.norm [-2] / Lipschitz num X cfg = 2 /\
  (1 <= cand /\
   C_prev (mixing num X [1] cfg 3 [-2] on_boundary) = Some cand /\
   border (mixing num X [1] cfg 3 [-2] on_boundary) = true) /\
  (C_prev (mixing num X [1] cfg 3 [-2] inside) = Some 5 /\
   c (mixing num X [1] cfg 3 [-2] inside) = [1]).
Proof.
  intros num X cfg cand on_boundary inside.
  split; [exact (base_sample_2 FW_stays cfg eq_refl) |].
  split.
  - destruct (radius_schedule num X [1] cfg 3 [-2] on_boundary 1
                eq_refl eq_refl (base_sample_2_pos FW_stays cfg eq_refl))
      as (Hfloor & HC & Hcb).
    split; [exact Hfloor |]. split; [exact HC |].
    exact (f_equal snd Hcb).
  - destruct (radius_schedule num X [1] cfg 3 [-2] inside 1
                eq_refl eq_refl (base_sample_2_pos FW_stays cfg eq_refl))
      as (_ & HC & Hcb).
    split; [exact HC |]. exact (f_equal fst Hcb).
Defined.

(** ** Regularization of the Gram matrix *)

Lemma nth_indexed_map {A B : Type} (f : nat * A -> B) (l : list A)
  (s i : nat) (dA : A) (dB : B) :
  (i < length l)%nat ->
  nth i (map f (combine (seq s (length l)) l)) dB = f ((s + i)%nat, nth i l dA).
Proof.
  revert s i. induction l as [| a l IH]; intros s i Hi; cbn in *; [lia |].
  destruct i as [| i].
  - rewrite Nat.add_0_r. reflexivity.
  - rewrite (IH (S s) i) by lia. f_equal. f_equal. lia.
Qed.

Lemma add_diag_length a M : length (add_diag a M) = length M.
Proof.
  unfold add_diag. rewrite length_map, length_combine, length_seq.
  apply Nat.min_id.
Qed.

Lemma add_diag_entry a M i j :
  (i < length M)%nat -> (j < length (nth i M []))%nat ->
  entry i j (add_diag a M)
  = entry i j M + (if Nat.eqb i j then a else 0).
Proof.
  intros Hi Hj. unfold entry, add_diag.
  rewrite (nth_indexed_map (B := vec) _ M 0 i [] []) by exact Hi.
  cbn [fst snd Nat.add].
  rewrite (nth_indexed_map _ (nth i M []) 0 j 0 0) by exact Hj.
  cbn [fst snd Nat.add].
  unfold vec. destruct (Nat.eqb i j); lra.
Qed.

(** C9, as the program has it.  With a regularization amount [r] the Gram
    matrix [G = R^T R] is replaced by [G + r * norm(G, 2) * I] before the
    coefficients are solved for, and the replaced matrix is the one both
    branches work on: [numpy.linalg.solve] when there is no radius bound,
    and the Frank-Wolfe solver when there is one. *)
Theorem regularization_before_both_solves
  (num : numerics) (X : design) (cfg : config)
  (it : nat) (norm_grad : R) (st : state) (r : R) :
  reg_amount cfg = Some r ->
  let RTR := gram (residuals (K cfg) (last_K_w st)) in
  let G := add_diag (r * norm_ord2 num RTR) RTR in
  (forall i j, (i < length RTR)%nat -> (j < length (nth i RTR []))%nat ->
     entry i j G
     = entry i j RTR + (if Nat.eqb i j then r * norm_ord2 num RTR else 0)) /\
  coefficients num X cfg it norm_grad st =
    match C0 cfg with
    | Some c0 =>
        let '(C, C_prev') :=
          radius_continuation st (radius_candidate num X cfg c0 norm_grad it) in
        match FW num G (Vec.onehot_last (K cfg))
                 (fw_tolerance cfg (last_K_w st)) C 5000 with
        | Some (c', _, border') => (c', border', C_prev')
        | None => (Vec.onehot_last (K cfg), border st, C_prev')
        end
    | None =>
        match linalg_solve num G (Vec.ones (K cfg)) with
        | Some z => (normalize z, border st, C_prev st)
        | None => (c st, border st, C_prev st)
        end
    end.
Proof.
  intros Hr RTR G. split.
  - intros i j Hi Hj. apply add_diag_entry; assumption.
  - unfold coefficients, gram_matrix. rewrite Hr. reflexivity.
Qed.

(** A pass mixes when the count of writes after it is a multiple of
    [K + 1]. *)
Lemma mixing_pass_next k it :
  (it mod (k + 1) = k)%nat -> (S it mod (k + 1) = 0)%nat.
Proof.
  intros H. pose proof (Nat.div_mod_eq it (k + 1)) as Hd. rewrite H in Hd.
  replace (S it) with (0 + (it / (k + 1) + 1) * (k + 1))%nat by lia.
  rewrite Nat.Div0.mod_add. apply Nat.Div0.mod_0_l.
Qed.

(** ** The iterate buffer *)

Section Buffer.

Variable K_ : nat.
Variable ws : nat -> vec.
Variable buf0 : matrix.
Hypothesis buf0_length : length buf0 = (K_ + 1)%nat.

Lemma set_col_length j v cols :
  length (Vec.set_col j v cols) = length cols.
Proof.
  revert j. induction cols as [| a cols IH]; intros [| j]; cbn;
    try reflexivity.
  rewrite IH. reflexivity.
Qed.

Lemma col_set_col_same j v cols :
  (j < length cols)%nat -> Vec.col j (Vec.set_col j v cols) = v.
Proof.
  unfold Vec.col. revert j.
  induction cols as [| a cols IH]; intros [| j] Hj; cbn in *;
    try lia; try reflexivity.
  apply IH. lia.
Qed.

Lemma col_set_col_other i j v cols :
  i <> j -> Vec.col i (Vec.set_col j v cols) = Vec.col i cols.
Proof.
  unfold Vec.col. revert i j.
  induction cols as [| a cols IH]; intros [| i] [| j] Hij; cbn;
    try reflexivity; try congruence.
  apply IH. congruence.
Qed.

Lemma buffer_after_length n :
  length (buffer_after K_ ws n buf0) = (K_ + 1)%nat.
Proof.
  induction n as [| n IH]; cbn; [exact buf0_length |].
  rewrite set_col_length. exact IH.
Qed.

(** Two passes less than [K + 1] apart write to different slots. *)
Lemma slots_differ i n :
  (i < n)%nat -> (n <= i + K_)%nat ->
  i mod (K_ + 1) <> n mod (K_ + 1).
Proof.
  clear buf0_length. intros Hlt Hle Heq.
  assert (Hk : (K_ + 1 <> 0)%nat) by lia.
  pose proof (Nat.div_mod_eq i (K_ + 1)) as Hi.
  pose proof (Nat.div_mod_eq n (K_ + 1)) as Hn.
  rewrite Heq in Hi.
  assert (Hd : (i / (K_ + 1) < n / (K_ + 1))%nat) by nia.
  nia.
Qed.

(** Whatever the number [n] of writes, each of the last [K + 1] iterates
    sits in the slot of its pass. *)
Lemma buffer_after_slot n i :
  (i < n)%nat -> (n <= i + (K_ + 1))%nat ->
  Vec.col (i mod (K_ + 1)) (buffer_after K_ ws n buf0) = ws i.
Proof.
  induction n as [| n IH]; intros Hlt Hle; [lia |].
  cbn [buffer_after].
  destruct (Nat.eq_dec i n) as [-> | Hne].
  - apply col_set_col_same. rewrite buffer_after_length.
    apply Nat.mod_upper_bound. lia.
  - rewrite col_set_col_other by (apply slots_differ; lia).
    apply IH; lia.
Qed.

(** When the count of writes is a multiple of [K + 1], the slots are in
    the order of the passes. *)
Lemma buffer_after_aligned n :
  (K_ + 1 <= n)%nat -> n mod (K_ + 1) = 0%nat ->
  buffer_after K_ ws n buf0
  = map ws (seq (n - (K_ + 1)) (K_ + 1)).
Proof.
  intros Hn Hal.
  apply (nth_ext _ _ [] (ws 0%nat)).
  - rewrite buffer_after_length, length_map, length_seq. reflexivity.
  - intros j Hj. rewrite buffer_after_length in Hj.
    rewrite (map_nth ws), seq_nth by exact Hj.
    assert (Hmod : ((n - (K_ + 1) + j) mod (K_ + 1) = j)%nat).
    { apply Nat.Div0.mod_divides in Hal. destruct Hal as [q Hq].
      destruct q as [| q]; [lia |].
      replace (n - (K_ + 1) + j)%nat with (j + q * (K_ + 1))%nat by nia.
      rewrite Nat.Div0.mod_add. apply Nat.mod_small. exact Hj. }
    pose proof (buffer_after_slot n (n - (K_ + 1) + j)) as Hs.
    rewrite Hmod in Hs. apply Hs; lia.
Qed.

Lemma residuals_of_sequence base :
  residuals K_ (map ws (seq base (K_ + 1)))
  = map (fun k => Vec.sub (ws (base + k + 1)%nat) (ws (base + k)%nat))
        (seq 0 K_).
Proof.
  clear buf0_length. unfold residuals. apply map_ext_in. intros k Hk.
  apply in_seq in Hk. unfold Vec.col.
  rewrite !(nth_indep _ [] (ws 0%nat))
    by (rewrite length_map, length_seq; lia).
  rewrite !(map_nth ws), !seq_nth by lia.
  replace (base + S k)%nat with (base + k + 1)%nat by lia.
  reflexivity.
Qed.

End Buffer.

Section Trace.

Variable num : numerics.
Variable X : design.
Variable y : vec.
Variable cfg : config.

Lemma iteration_plain it st :
  let g := gradient X y cfg (Xw st) (w st) in
  let st2 := step_and_push num X cfg it g
               (fst (log_metric num cfg it g (tick st))) in
  w st2 = plain_iterate num X y cfg st /\
  Xw st2 = Vec.matvec (rows X) (plain_iterate num X y cfg st) /\
  c st2 = c st /\ border st2 = border st /\ C_prev st2 = C_prev st /\
  last_K_w st2 =
    (if use_acc cfg
     then Vec.set_col (it mod (K cfg + 1)) (plain_iterate num X y cfg st)
            (last_K_w st)
     else last_K_w st) /\
  iteration num X y cfg it st =
    (if use_acc cfg && Nat.eqb (it mod (K cfg + 1)) (K cfg)
     then mixing num X y cfg it g st2 else st2).
Proof.
  intros g st2.
  destruct (log_metric_keeps num cfg it g (tick st))
    as (Hw & HXw & Hc & Hb & HC & Hbuf).
  unfold st2, plain_iterate. cbn [step_and_push w Xw c border C_prev last_K_w].
  rewrite Hw, Hc, Hb, HC, Hbuf. cbn [tick w Xw c border C_prev last_K_w].
  repeat split; reflexivity.
Qed.

Lemma iteration_buffer it st :
  use_acc cfg = true ->
  last_K_w (iteration num X y cfg it st)
  = Vec.set_col (it mod (K cfg + 1)) (plain_iterate num X y cfg st)
      (last_K_w st).
Proof.
  intros Hacc.
  destruct (iteration_plain it st) as (_ & _ & _ & _ & _ & Hbuf & Hit).
  rewrite Hit. rewrite Hacc in Hbuf.
  destruct (use_acc cfg && _); [rewrite mixing_keeps_buffer |]; exact Hbuf.
Qed.

Lemma state_after_buffer n :
  use_acc cfg = true ->
  last_K_w (state_after num X y cfg n)
  = buffer_after (K cfg)
      (fun i => plain_iterate num X y cfg (state_after num X y cfg i)) n
      (repeat (Vec.zeros (n_features X)) (K cfg + 1)).
Proof.
  intros Hacc. induction n as [| n IH]; cbn [state_after buffer_after].
  - cbn. rewrite Hacc. reflexivity.
  - rewrite iteration_buffer, IH by exact Hacc. reflexivity.
Qed.

(** A loop that runs its passes to their end goes through the states
    [state_after]. *)
Lemma loop_state_after s n st :
  loop num X y cfg (seq s n) (state_after num X y cfg s) = Next st ->
  st = state_after num X y cfg (s + n).
Proof.
  revert s. induction n as [| n IH]; intros s H; cbn in H.
  - rewrite Nat.add_0_r. congruence.
  - destruct (body num X y cfg s (state_after num X y cfg s)) as [s1 | s1 | e]
      eqn:Hb; try discriminate.
    apply body_next in Hb. subst s1.
    change (iteration num X y cfg s (state_after num X y cfg s))
      with (state_after num X y cfg (S s)) in H.
    apply IH in H. rewrite H. f_equal. lia.
Qed.

Lemma state_after_cache n :
  Xw (state_after num X y cfg (S n))
  = Vec.matvec (rows X) (w (state_after num X y cfg (S n))).
Proof. cbn [state_after]. apply iteration_cache. Qed.

End Trace.

(** C7.  In every run, once [n >= K + 1] iterates have been written to
    the buffer it holds exactly the [K + 1] most recent of them, the
    iterate of pass [i] in slot [i mod (K + 1)], whatever [n mod (K + 1)]
    is.  The residual matrix is built in the passes [n - 1] with
    [n mod (K + 1) = 0]; the buffer it is built from then lists those
    iterates from the oldest to the newest, and residual column [k] is
    iterate [k + 1] minus iterate [k].  A pass after which the count of
    writes is not such a multiple only steps and writes. *)
Theorem buffer_holds_latest_iterates
  (num : numerics) (X : design) (y : vec) (cfg : config) (n : nat) :
  use_acc cfg = true ->
  (K cfg + 1 <= n)%nat ->
  let pushed i := plain_iterate num X y cfg (state_after num X y cfg i) in
  let buf := last_K_w (state_after num X y cfg n) in
  length buf = (K cfg + 1)%nat /\
  (forall i, (n - (K cfg + 1) <= i < n)%nat ->
             Vec.col (i mod (K cfg + 1)) buf = pushed i) /\
  (n mod (K cfg + 1) = 0%nat ->
   buf = map pushed (seq (n - (K cfg + 1)) (K cfg + 1)) /\
   residuals (K cfg) buf
   = map (fun k => Vec.sub (pushed (n - (K cfg + 1) + k + 1)%nat)
                           (pushed (n - (K cfg + 1) + k)%nat))
         (seq 0 (K cfg))) /\
  (forall it st,
      (S it mod (K cfg + 1) <> 0)%nat ->
      let g := gradient X y cfg (Xw st) (w st) in
      iteration num X y cfg it st
      = step_and_push num X cfg it g
          (fst (log_metric num cfg it g (tick st)))).
Proof.
  intros Hacc Hn pushed buf.
  assert (Hbuf : buf = buffer_after (K cfg) pushed n
                         (repeat (Vec.zeros (n_features X)) (K cfg + 1)))
    by (apply state_after_buffer; exact Hacc).
  assert (H0 : length (repeat (Vec.zeros (n_features X)) (K cfg + 1))
               = (K cfg + 1)%nat) by apply repeat_length.
  rewrite Hbuf. split; [| split; [| split]].
  - apply (buffer_after_length _ _ _ H0).
  - intros i Hi. apply (buffer_after_slot _ _ _ H0); lia.
  - intros Hal.
    rewrite (buffer_after_aligned (K cfg) pushed _ H0 n Hn Hal).
    split; [reflexivity | apply residuals_of_sequence].
  - intros it st Hit g.
    destruct (iteration_plain num X y cfg it st) as (_ & _ & _ & _ & _ & _ & H).
    rewrite H.
    destruct (Nat.eqb_spec (it mod (K cfg + 1)) (K cfg)) as [Heq | _];
      [| rewrite andb_false_r; reflexivity].
    exfalso. apply Hit, mixing_pass_next, Heq.
Qed.

Lemma buffer_holds_latest_iterates_witness :
  let num := small_numerics FW_raises in
  let cfg := plain_config 1 2 in
  let pushed i :=
    plain_iterate num (one_sample 2) [1] cfg
      (state_after num (one_sample 2) [1] cfg i) in
  last_K_w (state_after num (one_sample 2) [1] cfg 2)
  = [pushed 0%nat; pushed 1%nat].
Proof.
  exact (proj1 (proj1 (proj2 (proj2
    (buffer_holds_latest_iterates (small_numerics FW_raises) (one_sample 2)
       [1] (plain_config 1 2) 2 eq_refl (le_n 2)))) eq_refl)).
Defined.

(** ** The step size *)

(** C5, as the program has it.  The solver is not given the scalar [L]:
    it computes [L] from the design matrix, as the square of its largest
    singular value over four plus [rho], and every descent step divides
    the gradient by that [L]: a pass that runs to its end leaves the
    iterate [w - (1/L) grad_w], unless it mixes and the mixed iterate
    takes its place. *)
Theorem step_size_computed_from_design
  (num : numerics) (X : design) (y : vec) (cfg : config) :
  let sigma :=
    if is_sparse X then svds_top num (rows X) else norm_ord2 num (rows X) in
  let L := sigma ^ 2 / 4 + rho cfg in
  Lipschitz num X cfg = L /\
  (forall it g st,
      w (step_and_push num X cfg it g st)
      = Vec.sub (w st) (Vec.scale (1 / L) g)) /\
  (forall it st,
      let g := gradient X y cfg (Xw st) (w st) in
      let stepped := Vec.sub (w st) (Vec.scale (1 / L) g) in
      match body num X y cfg it st with
      | Next st' =>
          st' = iteration num X y cfg it st /\
          (w st' = stepped \/
           w st' = extrapolate X (last_K_w st') (c st'))
      | Break st' => w st' = w st
      | Raise _ => True
      end).
Proof.
  intros sigma L.
  assert (HL : Lipschitz num X cfg = L)
    by (unfold Lipschitz, L, sigma; destruct (is_sparse X); reflexivity).
  split; [exact HL | split].
  - intros it g st. rewrite <- HL. reflexivity.
  - intros it st g stepped.
    destruct (body_cases num X y cfg it st)
      as [Hn | [(s & Hb & Hw & _) | (_ & Hr)]].
    + rewrite Hn. split; [reflexivity |].
      destruct (iteration_plain num X y cfg it st)
        as (Hw2 & _ & _ & _ & _ & _ & Hit).
      fold g in Hw2, Hit.
      set (st2 := step_and_push num X cfg it g _) in *.
      assert (Hst : w st2 = stepped)
        by (rewrite Hw2; unfold stepped, plain_iterate, descent;
            rewrite HL; reflexivity).
      rewrite Hit. destruct (use_acc cfg && _); [| left; exact Hst].
      destruct (mixing_outcome num X y cfg it g st2) as [[Ha _] | [Hr _]].
      * right. rewrite mixing_keeps_buffer. exact Ha.
      * left. rewrite Hr. exact Hst.
    + rewrite Hb. exact Hw.
    + rewrite Hr. exact I.
Qed.

(** C5, as the specification has it, fails.  Called on the sample [2] and
    on the sample [4] with one and the same configuration, and with no
    step-size argument to pass, the solver steps with [1/L] for [L = 1]
    and for [L = 4]: from the gradients [-1] and [-2] at the origin it
    reaches [1] and [1/2]. *)
Lemma step_size_depends_on_design :
  let num := small_numerics FW_raises in
  let cfg := plain_config 1 1 in
  Lipschitz num (one_sample 2) cfg = 1 /\
  Lipschitz num (one_sample 4) cfg = 4 /\
  solver_logreg num (one_sample 2) [1] cfg = inl ([1], [1], [0]) /\
  solver_logreg num (one_sample 4) [1] cfg = inl ([/ 2], [2], [0]).
Proof.
  cbv zeta.
  assert (HL2 : Lipschitz (small_numerics FW_raises) (one_sample 2)
                  (plain_config 1 1) = 1)
    by (rewrite Lipschitz_one_sample by (try reflexivity; lra); field).
  assert (HL4 : Lipschitz (small_numerics FW_raises) (one_sample 4)
                  (plain_config 1 1) = 4)
    by (rewrite Lipschitz_one_sample by (try reflexivity; lra); field).
  repeat split; try assumption.
  - unfold solver_logreg, run. cbn [K plain_config max_iter seq loop].
    rewrite body_runs by (cbn; try lra; discriminate).
    unfold iteration. cbn.
    rewrite frobenius_column, norm_1d by lra.
    replace (1 * 0) with 0 by ring. rewrite exp_0.
    rewrite Rabs_left by lra.
    repeat f_equal; field.
  - unfold solver_logreg, run. cbn [K plain_config max_iter seq loop].
    rewrite body_runs by (cbn; try lra; discriminate).
    unfold iteration. cbn.
    rewrite frobenius_column, norm_1d by lra.
    replace (1 * 0) with 0 by ring. rewrite exp_0.
    rewrite Rabs_left by lra.
    repeat f_equal; field.
Qed.

(** ** Shapes *)

Lemma zip_with_length f u v :
  length (Vec.zip_with f u v) = Nat.min (length u) (length v).
Proof.
  revert v. induction u as [| a u IH]; intros [| b v]; cbn; try reflexivity.
  rewrite IH. reflexivity.
Qed.

Lemma zeros_length n : length (Vec.zeros n) = n.
Proof. apply repeat_length. Qed.

Lemma scale_length a v : length (Vec.scale a v) = length v.
Proof. apply length_map. Qed.

Lemma lincomb_length n cols c_ :
  Forall (fun col => length col = n) cols ->
  length (Vec.lincomb n cols c_) = n.
Proof.
  intros Hall. revert c_.
  induction Hall as [| col cols Hcol Hall IH]; intros [| a c_]; cbn;
    try apply zeros_length.
  unfold Vec.add. rewrite zip_with_length, scale_length, IH, Hcol.
  apply Nat.min_id.
Qed.

Lemma add_zero_scaled col v :
  length col = length v -> Vec.add (Vec.scale 0 col) v = v.
Proof.
  unfold Vec.add, Vec.scale. revert v.
  induction col as [| a col IH]; intros [| b v] Hlen; cbn in *;
    try reflexivity; try discriminate.
  rewrite IH by congruence. f_equal. lra.
Qed.

Lemma add_one_scaled_zeros col :
  Vec.add (Vec.scale 1 col) (Vec.zeros (length col)) = col.
Proof.
  unfold Vec.add, Vec.scale, Vec.zeros.
  induction col as [| a col IH]; cbn; [reflexivity |].
  rewrite IH. f_equal. lra.
Qed.

(** The one-hot start vector picks the last of the columns it is applied
    to. *)
Lemma lincomb_onehot_last n cols :
  cols <> [] -> Forall (fun col => length col = n) cols ->
  Vec.lincomb n cols (Vec.onehot_last (length cols)) = last cols [].
Proof.
  intros Hne Hall. unfold Vec.onehot_last.
  induction Hall as [| col cols Hcol Hall IH]; [congruence |].
  destruct cols as [| col' cols].
  - cbn. rewrite <- Hcol. apply add_one_scaled_zeros.
  - cbn [length Nat.sub] in *.
    rewrite Nat.sub_0_r in IH.
    change (Vec.lincomb n (col :: col' :: cols)
              (Vec.zeros (S (length cols)) ++ [1]))
      with (Vec.add (Vec.scale 0 col)
              (Vec.lincomb n (col' :: cols)
                 (Vec.zeros (length cols) ++ [1]))).
    rewrite add_zero_scaled.
    + rewrite IH by discriminate. reflexivity.
    + rewrite lincomb_length by exact Hall. exact Hcol.
Qed.

Lemma onehot_last_spec k :
  k <> 0%nat ->
  length (Vec.onehot_last k) = k /\
  Vec.sum (Vec.onehot_last k) = 1 /\
  forall j, (j < k)%nat ->
            nth j (Vec.onehot_last k) 0 = if Nat.eqb j (k - 1) then 1 else 0.
Proof.
  intros Hk. unfold Vec.onehot_last. split; [| split].
  - rewrite length_app, zeros_length. cbn. lia.
  - unfold Vec.sum, Vec.zeros. rewrite fold_right_app. cbn.
    induction (k - 1)%nat as [| m IH]; cbn; [lra |]. rewrite IH. lra.
  - intros j Hj. destruct (Nat.eqb_spec j (k - 1)) as [-> | Hne].
    + rewrite app_nth2 by (rewrite zeros_length; lia).
      rewrite zeros_length, Nat.sub_diag. reflexivity.
    + rewrite app_nth1 by (rewrite zeros_length; lia).
      unfold Vec.zeros. apply nth_repeat.
Qed.

Lemma sum_normalize z : Vec.sum z <> 0 -> Vec.sum (normalize z) = 1.
Proof.
  intros Hz. unfold normalize.
  assert (H : forall s l, Vec.sum (map (fun zi => zi / s) l) = Vec.sum l / s).
  { intros s l. unfold Vec.sum.
    induction l as [| a l IH]; cbn; [unfold Rdiv; ring |].
    rewrite IH. unfold Rdiv. ring. }
  rewrite H. field. exact Hz.
Qed.

Section Shapes.

Variable num : numerics.
Variable X : design.
Variable y : vec.
Variable cfg : config.

(** Every sample has [n_features] entries. *)
Hypothesis rows_shape :
  Forall (fun r => length r = n_features X) (rows X).

Lemma gradient_length Xw_ w_ :
  length w_ = n_features X ->
  length (gradient X y cfg Xw_ w_) = n_features X.
Proof.
  intros Hw. unfold gradient, Vec.add, Vec.opp.
  rewrite zip_with_length, length_map, scale_length, Hw.
  rewrite lincomb_length by exact rows_shape. apply Nat.min_id.
Qed.

Lemma plain_iterate_length st :
  length (w st) = n_features X ->
  length (plain_iterate num X y cfg st) = n_features X.
Proof.
  intros Hw. unfold plain_iterate, descent, Vec.sub.
  rewrite zip_with_length, scale_length, gradient_length, Hw by exact Hw.
  apply Nat.min_id.
Qed.

Lemma Forall_removelast {A : Type} (P : A -> Prop) (l : list A) :
  Forall P l -> Forall P (removelast l).
Proof.
  induction 1 as [| a l Ha Hl IH]; cbn; [constructor |].
  destruct l; [constructor | constructor; assumption].
Qed.

Lemma Forall_set_col (P : vec -> Prop) j v cols :
  P v -> Forall P cols -> Forall P (Vec.set_col j v cols).
Proof.
  intros Hv Hall. revert j.
  induction Hall as [| a cols Ha Hall IH]; intros [| j]; cbn;
    constructor; auto.
Qed.

Lemma extrapolate_length buf c_ :
  Forall (fun col => length col = n_features X) buf ->
  length (extrapolate X buf c_) = n_features X.
Proof.
  intros Hall. unfold extrapolate.
  apply lincomb_length, Forall_removelast, Hall.
Qed.

Lemma init_shaped : shaped (n_features X) (init X y cfg).
Proof.
  split; cbn.
  - apply zeros_length.
  - destruct (use_acc cfg); [| constructor].
    apply Forall_forall. intros col Hin.
    apply repeat_spec in Hin. subst col. apply zeros_length.
Qed.

Lemma iteration_shaped it st :
  shaped (n_features X) st ->
  shaped (n_features X) (iteration num X y cfg it st).
Proof.
  intros [Hw Hbuf].
  destruct (iteration_plain num X y cfg it st)
    as (Hw2 & _ & _ & _ & _ & Hbuf2 & Hit).
  set (g := gradient X y cfg (Xw st) (w st)) in *.
  set (st2 := step_and_push num X cfg it g _) in *.
  assert (H2 : shaped (n_features X) st2).
  { split.
    - rewrite Hw2. apply plain_iterate_length, Hw.
    - rewrite Hbuf2. destruct (use_acc cfg); [| exact Hbuf].
      apply Forall_set_col; [| exact Hbuf].
      apply plain_iterate_length, Hw. }
  rewrite Hit. destruct (use_acc cfg && _); [| exact H2].
  destruct H2 as [Hw2' Hbuf2'].
  split; [| rewrite mixing_keeps_buffer; exact Hbuf2'].
  destruct (mixing_outcome num X y cfg it g st2) as [[Hacc _] | [Hrej _]].
  - rewrite Hacc. apply extrapolate_length, Hbuf2'.
  - rewrite Hrej. exact Hw2'.
Qed.

Lemma state_after_shaped n :
  shaped (n_features X) (state_after num X y cfg n).
Proof.
  induction n as [| n IH]; cbn [state_after];
    [apply init_shaped | apply iteration_shaped, IH].
Qed.

(** Outside the mixing passes the working iterate is the plain one. *)
Lemma state_after_plain n :
  (n mod (K cfg + 1) <> K cfg)%nat ->
  w (state_after num X y cfg (S n))
  = plain_iterate num X y cfg (state_after num X y cfg n).
Proof.
  intros Hn. cbn [state_after].
  destruct (iteration_plain num X y cfg n (state_after num X y cfg n))
    as (Hw2 & _ & _ & _ & _ & _ & Hit).
  rewrite Hit.
  apply Nat.eqb_neq in Hn. rewrite Hn, andb_false_r. exact Hw2.
Qed.

End Shapes.

(** ** Runs that go to [max_iter] *)

Section Runs.

Variable num : numerics.
Variable X : design.
Variable y : vec.
Variable cfg : config.

Hypothesis no_tolerance : tol cfg <= 0.
Hypothesis metric_period : f_grad cfg <> 0%nat.
Hypothesis in_time :
  forall k, ~ max_time cfg < clock num k - start_time num.

Lemma loop_runs s n :
  loop num X y cfg (seq s n) (state_after num X y cfg s)
  = Next (state_after num X y cfg (s + n)).
Proof.
  revert s. induction n as [| n IH]; intros s; cbn [seq loop].
  - rewrite Nat.add_0_r. reflexivity.
  - rewrite body_runs by auto.
    change (iteration num X y cfg s (state_after num X y cfg s))
      with (state_after num X y cfg (S s)).
    rewrite IH. do 2 f_equal. lia.
Qed.

Lemma run_runs :
  K cfg <> 0%nat ->
  run num X y cfg = inl (state_after num X y cfg (max_iter cfg)).
Proof.
  intros HK. unfold run. destruct (K cfg); [congruence |].
  change (init X y cfg) with (state_after num X y cfg 0).
  rewrite loop_runs. reflexivity.
Qed.

End Runs.

(** ** The passes that mix *)

Lemma mixing_pass_previous k it :
  k <> 0%nat -> (it mod (k + 1) = k)%nat ->
  (k <= it)%nat /\ ((it - 1) mod (k + 1) <> k)%nat.
Proof.
  intros Hk H. pose proof (Nat.div_mod_eq it (k + 1)) as Hd. rewrite H in Hd.
  split; [lia |].
  replace (it - 1)%nat with ((k - 1) + (it / (k + 1)) * (k + 1))%nat by lia.
  rewrite Nat.Div0.mod_add, Nat.mod_small by lia. lia.
Qed.

Lemma removelast_map_seq {A : Type} (f : nat -> A) base k :
  removelast (map f (seq base (k + 1))) = map f (seq base k).
Proof.
  rewrite Nat.add_1_r, seq_S, map_app. cbn [map].
  apply removelast_last.
Qed.

Section MixingPass.

Variable num : numerics.
Variable X : design.
Variable y : vec.
Variable cfg : config.

Hypothesis accelerated : use_acc cfg = true.
Hypothesis order : K cfg <> 0%nat.

Local Abbreviation pushed :=
  (fun i => plain_iterate num X y cfg (state_after num X y cfg i)).

(** At a mixing pass [it] the buffer lists the iterates of the passes
    [it - K .. it]. *)
Lemma mixing_pass_buffer it :
  (it mod (K cfg + 1) = K cfg)%nat ->
  last_K_w (state_after num X y cfg (S it))
  = map pushed (seq (it - K cfg) (K cfg + 1)).
Proof.
  intros Hit.
  destruct (mixing_pass_previous _ _ order Hit) as [Hle _].
  rewrite state_after_buffer by exact accelerated.
  rewrite buffer_after_aligned.
  - f_equal. f_equal. lia.
  - apply repeat_length.
  - lia.
  - apply mixing_pass_next, Hit.
Qed.

(** The pass starts from the iterate written one pass earlier. *)
Lemma mixing_pass_starts_from_previous it :
  (it mod (K cfg + 1) = K cfg)%nat ->
  w (state_after num X y cfg it) = pushed (it - 1)%nat.
Proof.
  intros Hit.
  destruct (mixing_pass_previous _ _ order Hit) as [Hle Hprev].
  destruct it as [| n]; [lia |].
  replace (S n - 1)%nat with n in * by lia.
  apply state_after_plain. exact Hprev.
Qed.

(** The state of a mixing pass after its event. *)
Lemma mixing_pass_state it :
  (it mod (K cfg + 1) = K cfg)%nat ->
  let st := state_after num X y cfg it in
  let g := gradient X y cfg (Xw st) (w st) in
  let st2 := step_and_push num X cfg it g
               (fst (log_metric num cfg it g (tick st))) in
  state_after num X y cfg (S it) = mixing num X y cfg it g st2 /\
  last_K_w st2 = last_K_w (state_after num X y cfg (S it)) /\
  w st2 = pushed it /\ Xw st2 = Vec.matvec (rows X) (pushed it) /\
  c st2 = c st /\ border st2 = border st /\ C_prev st2 = C_prev st.
Proof.
  intros Hit st g st2.
  destruct (iteration_plain num X y cfg it st)
    as (Hw & HXw & Hc & Hb & HC & _ & Hiter).
  fold g in Hw, HXw, Hc, Hb, HC, Hiter. fold st2 in Hw, HXw, Hc, Hb, HC, Hiter.
  rewrite accelerated, Hit, Nat.eqb_refl in Hiter. cbn [andb] in Hiter.
  cbn [state_after]. fold st. rewrite Hiter.
  rewrite mixing_keeps_buffer. repeat split; assumption.
Qed.

Hypothesis rows_shape :
  Forall (fun r => length r = n_features X) (rows X).

(** Applied to the buffer, the start vector of the constrained solve
    gives back the iterate the pass started from. *)
Lemma start_vector_selects_previous it :
  (it mod (K cfg + 1) = K cfg)%nat ->
  extrapolate X (last_K_w (state_after num X y cfg (S it)))
    (Vec.onehot_last (K cfg))
  = w (state_after num X y cfg it).
Proof.
  intros Hit.
  destruct (mixing_pass_previous _ _ order Hit) as [Hle _].
  rewrite mixing_pass_buffer, mixing_pass_starts_from_previous by exact Hit.
  unfold extrapolate. rewrite removelast_map_seq.
  set (cols := map pushed (seq (it - K cfg) (K cfg))).
  assert (Hlen : length cols = K cfg)
    by (unfold cols; rewrite length_map, length_seq; reflexivity).
  rewrite <- Hlen at 1.
  rewrite lincomb_onehot_last.
  - unfold cols. clear cols Hlen. revert Hle.
    destruct (K cfg) as [| k]; [congruence |]. intros Hle.
    rewrite seq_S, map_app. cbn [map].
    rewrite last_last. do 2 f_equal. lia.
  - intros Hnil. rewrite Hnil in Hlen. cbn in Hlen. lia.
  - apply Forall_forall. intros col Hin. unfold cols in Hin.
    apply in_map_iff in Hin. destruct Hin as (i & <- & _).
    apply plain_iterate_length; [exact rows_shape |].
    apply state_after_shaped. exact rows_shape.
Qed.

End MixingPass.

(** ** The safeguard *)

(** The safeguard of a mixing pass, against the gradient norm at the start
    of the pass. *)
Lemma safeguard_step
  (num : numerics) (X : design) (y : vec) (cfg : config)
  (it : nat) (st : state) :
  use_acc cfg = true ->
  (it mod (K cfg + 1) = K cfg)%nat ->
  Xw st = Vec.matvec (rows X) (w st) ->
  let st' := iteration num X y cfg it st in
  let plain := plain_iterate num X y cfg st in
  let w_acc := extrapolate X (last_K_w st') (c st') in
  (grad_norm_at X y cfg w_acc < grad_norm_at X y cfg (w st) ->
   w st' = w_acc /\ Xw st' = Vec.matvec (rows X) w_acc) /\
  (~ grad_norm_at X y cfg w_acc < grad_norm_at X y cfg (w st) ->
   w st' = plain /\ Xw st' = Vec.matvec (rows X) plain).
Proof.
  intros Hacc Hit Hcache st' plain w_acc.
  destruct (iteration_plain num X y cfg it st)
    as (Hw & HXw & _ & _ & _ & _ & Hiter).
  set (g := gradient X y cfg (Xw st) (w st)) in *.
  set (st2 := step_and_push num X cfg it g _) in *.
  rewrite Hacc, Hit, Nat.eqb_refl in Hiter. cbn [andb] in Hiter.
  assert (Hbuf : last_K_w st' = last_K_w st2)
    by (unfold st'; rewrite Hiter; apply mixing_keeps_buffer).
  assert (Hng : Vec.norm g = grad_norm_at X y cfg (w st))
    by (unfold grad_norm_at, g; rewrite Hcache; reflexivity).
  destruct (mixing_safeguard num X y cfg it g st2) as [Hyes Hno].
  rewrite <- Hiter in Hyes, Hno. fold st' in Hyes, Hno.
  rewrite <- Hbuf in Hyes, Hno. fold w_acc in Hyes, Hno.
  rewrite Hng in Hyes, Hno.
  change (Vec.norm (gradient X y cfg (Vec.matvec (rows X) w_acc) w_acc))
    with (grad_norm_at X y cfg w_acc) in Hyes, Hno.
  rewrite Hw, HXw in Hno. fold plain in Hno.
  split; [exact Hyes | exact Hno].
Qed.

(** C1, as the program has it.  At every mixing pass the mixed iterate
    replaces the working iterate and its cached prediction exactly when
    its gradient norm is strictly below [norm(grad_w)], the norm of the
    gradient the descent step of that pass used: the gradient at the
    iterate the pass started from, not at the plain iterate it produced.
    Otherwise the plain iterate is kept.  So the iterate the loop goes on
    with is the plain one, or one whose gradient norm is strictly below
    that of the iterate the pass started from. *)
Theorem safeguard_compares_with_start_of_pass
  (num : numerics) (X : design) (y : vec) (cfg : config)
  (it : nat) (st : state) :
  use_acc cfg = true ->
  (it mod (K cfg + 1) = K cfg)%nat ->
  Xw st = Vec.matvec (rows X) (w st) ->
  let st' := iteration num X y cfg it st in
  let plain := plain_iterate num X y cfg st in
  let w_acc := extrapolate X (last_K_w st') (c st') in
  (grad_norm_at X y cfg w_acc < grad_norm_at X y cfg (w st) ->
   w st' = w_acc /\ Xw st' = Vec.matvec (rows X) w_acc) /\
  (~ grad_norm_at X y cfg w_acc < grad_norm_at X y cfg (w st) ->
   w st' = plain /\ Xw st' = Vec.matvec (rows X) plain) /\
  (w st' = plain \/
   grad_norm_at X y cfg (w st') < grad_norm_at X y cfg (w st)).
Proof.
  intros Hacc Hit Hcache st' plain w_acc.
  destruct (safeguard_step num X y cfg it st Hacc Hit Hcache) as [Hyes Hno].
  fold st' in Hyes, Hno. fold plain in Hno. fold w_acc in Hyes, Hno.
  split; [exact Hyes | split; [exact Hno |]].
  destruct (Rlt_dec (grad_norm_at X y cfg w_acc)
              (grad_norm_at X y cfg (w st))) as [Hlt | Hge].
  - right. destruct (Hyes Hlt) as [-> _]. exact Hlt.
  - left. exact (proj1 (Hno Hge)).
Qed.

(** ** The coefficient solves *)

(** C8.  With no radius bound, and [numpy.linalg.solve] doing on the Gram
    matrix [G] of the event what it is documented to do, a nonsingular
    [G] gives the coefficients [z / sum(z)] for the one [z] with
    [G z = 1]: entry [i] of the coefficients is [z_i] divided by the sum
    of the entries of [z].  They sum to one when [sum(z)] is not zero. *)
Theorem unconstrained_coefficients
  (num : numerics) (X : design) (y : vec) (cfg : config)
  (it : nat) (g : vec) (st : state) :
  C0 cfg = None ->
  let G := gram_matrix num cfg (last_K_w st) in
  let st' := mixing num X y cfg it g st in
  (forall z, linalg_solve num G (Vec.ones (K cfg)) = Some z ->
             length z = K cfg /\ Vec.matvec G z = Vec.ones (K cfg)) ->
  (nonsingular (K cfg) G ->
   linalg_solve num G (Vec.ones (K cfg)) <> None) ->
  nonsingular (K cfg) G ->
  exists z,
    length z = K cfg /\
    Vec.matvec G z = Vec.ones (K cfg) /\
    (forall z', length z' = K cfg ->
                Vec.matvec G z' = Vec.ones (K cfg) -> z' = z) /\
    c st' = map (fun zi => zi / Vec.sum z) z /\
    (Vec.sum z <> 0 -> Vec.sum (c st') = 1).
Proof.
  intros HC0 G st' Hsound Hcomplete Hns.
  pose proof (mixing_coefficients num X y cfg it g st) as Hm.
  fold st' in Hm. unfold coefficients in Hm. rewrite HC0 in Hm. fold G in Hm.
  destruct (linalg_solve num G (Vec.ones (K cfg))) as [z |] eqn:Hz.
  - destruct (Hsound z eq_refl) as [Hlen HGz].
    assert (Hc : c st' = normalize z) by congruence.
    exists z. repeat split; try assumption.
    + intros z' Hlen' HGz'. apply Hns; congruence.
    + intros Hsum. rewrite Hc. apply sum_normalize, Hsum.
  - exfalso. apply (Hcomplete Hns). reflexivity.
Qed.

(** C4, as the program has it.  At every mixing event whose solve gives a
    vector, the coefficients used for the mixed iterate sum to one: the
    normalized solution of the unconstrained solve, or the vector the
    constrained solve returns, for a solver that stays on the hyperplane
    it starts on.  When the constrained solve fails the coefficients are its
    start vector, which sums to one.  When the unconstrained solve fails
    they are the vector the event found in place, so they sum to one as
    soon as the previous ones did. *)
Theorem coefficients_sum_to_one
  (num : numerics) (X : design) (y : vec) (cfg : config)
  (it : nat) (g : vec) (st : state) :
  K cfg <> 0%nat ->
  let G := gram_matrix num cfg (last_K_w st) in
  let st' := mixing num X y cfg it g st in
  (C0 cfg = None ->
   forall z, linalg_solve num G (Vec.ones (K cfg)) = Some z ->
             Vec.sum z <> 0) ->
  affine_solver (FW num) ->
  (Vec.sum (c st') = 1 \/
   (C0 cfg = None /\
    linalg_solve num G (Vec.ones (K cfg)) = None /\ c st' = c st)) /\
  (Vec.sum (c st) = 1 -> Vec.sum (c st') = 1).
Proof.
  intros HK G st' Hsolve Hfw.
  pose proof (mixing_coefficients num X y cfg it g st) as Hm.
  fold st' in Hm. unfold coefficients in Hm. fold G in Hm.
  assert (Hcases :
    Vec.sum (c st') = 1 \/
    (C0 cfg = None /\
     linalg_solve num G (Vec.ones (K cfg)) = None /\ c st' = c st)).
  { destruct (C0 cfg) as [c0 |] eqn:HC0.
    - left.
      destruct (radius_continuation st
                  (radius_candidate num X cfg c0 (Vec.norm g) it))
        as [C C'].
      destruct (FW num G _ _ C 5000) as [[[c1 gap] b] |] eqn:HFW.
      + replace (c st') with c1 by congruence.
        apply (Hfw _ _ _ _ _ c1 gap b
                 (proj1 (proj2 (onehot_last_spec (K cfg) HK))) HFW).
      + replace (c st') with (Vec.onehot_last (K cfg)) by congruence.
        apply (proj1 (proj2 (onehot_last_spec (K cfg) HK))).
    - destruct (linalg_solve num G (Vec.ones (K cfg))) as [z |] eqn:Hz.
      + left. replace (c st') with (normalize z) by congruence.
        apply sum_normalize, (Hsolve eq_refl z eq_refl).
      + right. repeat split; congruence. }
  split; [exact Hcases |].
  intros Hprev. destruct Hcases as [H | (_ & _ & H)]; [exact H |].
  rewrite H. exact Hprev.
Qed.

(** ** A solve that fails *)

(** C2, as the program has it.  When [numpy.linalg.solve] raises at a
    mixing pass, the coefficient vector, the boundary flag and the stored
    radius are those the pass found, and the candidate built from that
    old vector is still put to the safeguard.  When the constrained solve
    raises, the coefficient vector is not the previous one but the start
    vector set just before the call, the boundary flag is kept, and the
    stored radius is the one chosen before the call; the candidate is
    then the iterate the pass started from, the strict test rejects it,
    and the pass ends on the plain iterate. *)
Theorem failed_solve_at_mixing_pass
  (num : numerics) (X : design) (y : vec) (cfg : config) (it : nat) :
  use_acc cfg = true ->
  K cfg <> 0%nat ->
  (it mod (K cfg + 1) = K cfg)%nat ->
  Forall (fun r => length r = n_features X) (rows X) ->
  let st := state_after num X y cfg it in
  let st' := state_after num X y cfg (S it) in
  let plain := plain_iterate num X y cfg st in
  let buf := last_K_w st' in
  let G := gram_matrix num cfg buf in
  let norm_grad := Vec.norm (gradient X y cfg (Xw st) (w st)) in
  (C0 cfg = None ->
   linalg_solve num G (Vec.ones (K cfg)) = None ->
   c st' = c st /\ border st' = border st /\ C_prev st' = C_prev st /\
   let w_acc := extrapolate X buf (c st) in
   (grad_norm_at X y cfg w_acc < grad_norm_at X y cfg (w st) ->
    w st' = w_acc) /\
   (~ grad_norm_at X y cfg w_acc < grad_norm_at X y cfg (w st) ->
    w st' = plain)) /\
  (forall c0,
      C0 cfg = Some c0 ->
      let C := fst (radius_continuation st
                      (radius_candidate num X cfg c0 norm_grad it)) in
      FW num G (Vec.onehot_last (K cfg)) (fw_tolerance cfg buf) C 5000
      = None ->
      c st' = Vec.onehot_last (K cfg) /\
      border st' = border st /\ C_prev st' = C /\
      extrapolate X buf (c st') = w st /\
      w st' = plain /\ Xw st' = Vec.matvec (rows X) plain).
Proof.
  intros Hacc HK Hit Hrows st st' plain buf G norm_grad.
  destruct (mixing_pass_previous _ _ HK Hit) as [Hle _].
  assert (Hcache : Xw st = Vec.matvec (rows X) (w st)).
  { unfold st. destruct it as [| n]; [lia |]. apply state_after_cache. }
  destruct (mixing_pass_state num X y cfg Hacc it Hit)
    as (Hst' & Hbuf & Hw2 & HXw2 & Hc2 & Hb2 & HC2).
  fold st in Hst', Hbuf, Hw2, HXw2, Hc2, Hb2, HC2.
  set (g := gradient X y cfg (Xw st) (w st)) in *.
  set (st2 := step_and_push num X cfg it g _) in *.
  fold st' in Hst', Hbuf. fold buf in Hbuf.
  pose proof (mixing_coefficients num X y cfg it g st2) as Hm.
  rewrite <- Hst' in Hm. unfold coefficients in Hm.
  rewrite Hbuf in Hm. fold G in Hm.
  pose proof (safeguard_step num X y cfg it st Hacc Hit Hcache) as Hsafe.
  cbn zeta in Hsafe.
  change (iteration num X y cfg it st) with st' in Hsafe.
  fold buf in Hsafe. fold plain in Hsafe.
  destruct Hsafe as (Hyes & Hno).
  split.
  - intros HC0 Hfail. rewrite HC0, Hfail in Hm.
    assert (Hc : c st' = c st) by congruence.
    repeat split; try congruence.
    + intros Hlt. rewrite <- Hc in Hlt |- *. exact (proj1 (Hyes Hlt)).
    + intros Hge. rewrite <- Hc in Hge. exact (proj1 (Hno Hge)).
  - intros c0 HC0 C Hfail. rewrite HC0 in Hm.
    unfold radius_continuation in Hm, C.
    rewrite Hb2, HC2 in Hm. fold norm_grad in Hm.
    assert (Hm' :
      (c st', border st', C_prev st') = (Vec.onehot_last (K cfg), border st, C)).
    { unfold C in *. destruct (border st); cbn [fst] in *;
        cbv beta iota in Hm; rewrite Hfail in Hm; exact Hm. }
    assert (Hc : c st' = Vec.onehot_last (K cfg)) by congruence.
    assert (Hsel : extrapolate X buf (c st') = w st).
    { rewrite Hc. unfold buf, st', st.
      apply start_vector_selects_previous; assumption. }
    assert (Hrej : ~ grad_norm_at X y cfg (extrapolate X buf (c st'))
                     < grad_norm_at X y cfg (w st))
      by (rewrite Hsel; apply Rlt_irrefl).
    destruct (Hno Hrej) as [Hw HXw].
    repeat split; try congruence.
Qed.

(** ** The candidate *)

(** C3, as the program has it.  At a mixing pass [it] the buffer lists
    the iterates of the passes [it - K .. it], oldest first.  The
    candidate [last_K_w[:, :-1] @ c] combines the first [K] of them, the
    passes [it - K .. it - 1]: the slot left out is the newest one, not
    the oldest.  The constrained solve starts from the vector with one at
    its last index [K - 1] and zero elsewhere, and on the buffer that
    vector stands for the iterate of pass [it - 1], the newest of those
    combined and the second newest of those buffered. *)
Theorem candidate_leaves_out_newest
  (num : numerics) (X : design) (y : vec) (cfg : config) (it : nat) :
  use_acc cfg = true ->
  K cfg <> 0%nat ->
  (it mod (K cfg + 1) = K cfg)%nat ->
  Forall (fun r => length r = n_features X) (rows X) ->
  let pushed i := plain_iterate num X y cfg (state_after num X y cfg i) in
  let st := state_after num X y cfg it in
  let st' := state_after num X y cfg (S it) in
  let buf := last_K_w st' in
  buf = map pushed (seq (it - K cfg) (K cfg + 1)) /\
  (forall c_,
      extrapolate X buf c_
      = Vec.lincomb (n_features X) (map pushed (seq (it - K cfg) (K cfg))) c_) /\
  (w st' = extrapolate X buf (c st') \/ w st' = pushed it) /\
  (forall c0,
      C0 cfg = Some c0 ->
      exists C C',
        (c st', border st', C_prev st')
        = match FW num (gram_matrix num cfg buf) (Vec.onehot_last (K cfg))
                  (fw_tolerance cfg buf) C 5000 with
          | Some (c', _, border') => (c', border', C')
          | None => (Vec.onehot_last (K cfg), border st, C')
          end) /\
  (length (Vec.onehot_last (K cfg)) = K cfg /\
   forall j, (j < K cfg)%nat ->
             nth j (Vec.onehot_last (K cfg)) 0
             = if Nat.eqb j (K cfg - 1) then 1 else 0) /\
  extrapolate X buf (Vec.onehot_last (K cfg)) = pushed (it - 1)%nat.
Proof.
  intros Hacc HK Hit Hrows pushed st st' buf.
  assert (Hbuf : buf = map pushed (seq (it - K cfg) (K cfg + 1)))
    by (apply mixing_pass_buffer; assumption).
  destruct (mixing_pass_state num X y cfg Hacc it Hit)
    as (Hst' & Hbuf2 & Hw2 & HXw2 & Hc2 & Hb2 & HC2).
  fold st in Hst', Hbuf2, Hw2, HXw2, Hc2, Hb2, HC2.
  set (g := gradient X y cfg (Xw st) (w st)) in *.
  set (st2 := step_and_push num X cfg it g _) in *.
  fold st' in Hst', Hbuf2. fold buf in Hbuf2.
  split; [exact Hbuf |]. split; [| split; [| split; [| split]]].
  - intros c_. unfold extrapolate. rewrite Hbuf, removelast_map_seq.
    reflexivity.
  - destruct (mixing_outcome num X y cfg it g st2) as [[Hw _] | [Hw _]];
      rewrite <- Hst' in Hw.
    + left. rewrite Hw, Hbuf2. reflexivity.
    + right. rewrite Hw. exact Hw2.
  - intros c0 HC0.
    pose proof (mixing_coefficients num X y cfg it g st2) as Hm.
    rewrite <- Hst' in Hm. unfold coefficients in Hm.
    rewrite HC0, Hbuf2, Hb2 in Hm.
    destruct (radius_continuation st2
                (radius_candidate num X cfg c0 (Vec.norm g) it)) as [C C'].
    exists C, C'. exact Hm.
  - destruct (onehot_last_spec (K cfg) HK) as (Hlen & _ & Hnth).
    split; assumption.
  - unfold buf, st'.
    rewrite start_vector_selects_previous by assumption.
    apply mixing_pass_starts_from_previous; assumption.
Qed.

(** ** The solver on the sample [2]

    The design [one_sample 2] with label [+1] and no penalty: [L = 1],
    the gradient at the iterate [q] is [- slope (2 q)], and the plain
    iterates from the origin are [1], [1 + slope 2], ... *)

Lemma slope_pos p : 0 < slope p.
Proof.
  unfold slope. pose proof (exp_pos p). apply Rdiv_lt_0_compat; lra.
Qed.

Lemma slope_0 : slope 0 = 1.
Proof. unfold slope. rewrite exp_0. field. Qed.

Lemma slope_decreasing p q : p < q -> slope q < slope p.
Proof.
  intros Hpq. unfold slope.
  pose proof (exp_pos p). pose proof (exp_increasing p q Hpq).
  unfold Rdiv. apply Rmult_lt_compat_l; [lra |].
  apply Rinv_lt_contravar; [| lra].
  apply Rmult_lt_0_compat; lra.
Qed.

Section OneSample.

Variable fw : matrix -> vec -> R -> option R -> nat
              -> option (vec * R * bool).
Variable cfg : config.

Hypothesis no_penalty : rho cfg = 0.
Hypothesis accelerated : use_acc cfg = true.

Local Abbreviation num := (small_numerics fw).
Local Abbreviation X2 := (one_sample 2).
Local Abbreviation after := (state_after num X2 [1] cfg).
Local Abbreviation pushed := (fun i => plain_iterate num X2 [1] cfg (after i)).

Lemma Lipschitz_sample_2 : Lipschitz num X2 cfg = 1.
Proof.
  rewrite Lipschitz_one_sample by (try exact no_penalty; lra). field.
Qed.

Lemma gradient_sample_2 p q : gradient X2 [1] cfg [p] [q] = [- slope p].
Proof. rewrite gradient_one_sample by exact no_penalty. reflexivity. Qed.

Lemma matvec_sample_2 q : Vec.matvec (rows X2) [q] = [2 * q].
Proof. cbn. unfold Vec.dot. cbn. f_equal. ring. Qed.

Lemma grad_norm_sample_2 q : grad_norm_at X2 [1] cfg [q] = slope (2 * q).
Proof.
  unfold grad_norm_at.
  rewrite matvec_sample_2, gradient_sample_2, norm_1d, Rabs_Ropp.
  apply Rabs_pos_eq. left. apply slope_pos.
Qed.

Lemma plain_iterate_sample_2 st q p :
  w st = [q] -> Xw st = [p] ->
  plain_iterate num X2 [1] cfg st = [q + slope p].
Proof.
  intros Hw HXw. unfold plain_iterate, descent.
  rewrite Hw, HXw, gradient_sample_2, Lipschitz_sample_2.
  cbn. f_equal. field.
Qed.

(** A pass that does not mix moves [q] to [q + slope p]. *)
Lemma plain_pass_sample_2 n q p :
  (n mod (K cfg + 1) <> K cfg)%nat ->
  w (after n) = [q] -> Xw (after n) = [p] ->
  pushed n = [q + slope p] /\
  w (after (S n)) = [q + slope p] /\
  Xw (after (S n)) = [2 * (q + slope p)].
Proof.
  intros Hn Hw HXw.
  assert (Hp : pushed n = [q + slope p])
    by (apply plain_iterate_sample_2; assumption).
  assert (Hw' : w (after (S n)) = [q + slope p])
    by (rewrite state_after_plain by exact Hn; exact Hp).
  repeat split; try assumption.
  rewrite state_after_cache, Hw'. apply matvec_sample_2.
Qed.

Lemma first_pass_sample_2 :
  K cfg <> 0%nat ->
  pushed 0%nat = [1] /\ w (after 1) = [1] /\ Xw (after 1) = [2].
Proof.
  intros HK.
  assert (H0 : (0 mod (K cfg + 1) <> K cfg)%nat)
    by (rewrite Nat.Div0.mod_0_l; congruence).
  destruct (plain_pass_sample_2 0 0 0 H0 eq_refl eq_refl) as (Hp & Hw & HXw).
  rewrite slope_0 in Hp, Hw, HXw.
  replace (0 + 1) with 1 in Hp, Hw, HXw by ring.
  replace (2 * 1) with 2 in HXw by ring.
  repeat split; assumption.
Qed.

Lemma second_iterate_sample_2 :
  K cfg <> 0%nat -> pushed 1%nat = [1 + slope 2].
Proof.
  intros HK. destruct (first_pass_sample_2 HK) as (_ & Hw & HXw).
  apply plain_iterate_sample_2; assumption.
Qed.

(** The buffer at the first mixing pass when [K = 1]. *)
Lemma first_event_buffer :
  K cfg = 1%nat ->
  last_K_w (after 2) = [[1]; [1 + slope 2]].
Proof.
  intros HK.
  assert (HK0 : K cfg <> 0%nat) by lia.
  rewrite (mixing_pass_buffer num X2 [1] cfg accelerated HK0 1)
    by (rewrite HK; reflexivity).
  rewrite HK. cbn [Nat.sub Nat.add seq map].
  rewrite (proj1 (first_pass_sample_2 HK0)), (second_iterate_sample_2 HK0).
  reflexivity.
Qed.

End OneSample.

Lemma plain_pass_keeps_coefficients num X y cfg n :
  (n mod (K cfg + 1) <> K cfg)%nat ->
  c (state_after num X y cfg (S n)) = c (state_after num X y cfg n).
Proof.
  intros Hn. cbn [state_after].
  destruct (iteration_plain num X y cfg n (state_after num X y cfg n))
    as (_ & _ & Hc & _ & _ & _ & Hit).
  rewrite Hit. apply Nat.eqb_neq in Hn. rewrite Hn, andb_false_r. exact Hc.
Qed.

(** The example configurations run to [max_iter]. *)
Lemma plain_config_runs fw X y k n :
  k <> 0%nat ->
  run (small_numerics fw) X y (plain_config k n)
  = inl (state_after (small_numerics fw) X y (plain_config k n) n).
Proof.
  intros Hk. apply run_runs; cbn; try lra; try discriminate; try assumption.
  intros _. lra.
Qed.

Lemma constrained_config_runs fw X y k n c0 ad :
  k <> 0%nat ->
  run (small_numerics fw) X y (constrained_config k n c0 ad)
  = inl (state_after (small_numerics fw) X y (constrained_config k n c0 ad) n).
Proof.
  intros Hk. apply run_runs; cbn; try lra; try discriminate; try assumption.
  intros _. lra.
Qed.

Lemma regularized_config_runs fw X y k n c0 r :
  k <> 0%nat ->
  run (small_numerics fw) X y (regularized_config k n c0 r)
  = inl (state_after (small_numerics fw) X y (regularized_config k n c0 r) n).
Proof.
  intros Hk. apply run_runs; cbn; try lra; try discriminate; try assumption.
  intros _. lra.
Qed.

Lemma gram_first_event a :
  gram (residuals 1 [[1]; [1 + a]]) = [[a * a]].
Proof.
  unfold gram, residuals. cbn. unfold Vec.dot. cbn. do 2 f_equal. ring.
Qed.

(** The coefficients of the first mixing pass with [K = 1], read off the
    state after it. *)
Lemma first_event_coefficients fw cfg :
  rho cfg = 0 -> use_acc cfg = true -> K cfg = 1%nat ->
  let num := small_numerics fw in
  let st := state_after num (one_sample 2) [1] cfg 1 in
  let st' := state_after num (one_sample 2) [1] cfg 2 in
  exists st2,
    c st2 = c st /\ border st2 = border st /\ C_prev st2 = C_prev st /\
    last_K_w st2 = [[1]; [1 + slope 2]] /\
    (c st', border st', C_prev st')
    = coefficients num (one_sample 2) cfg 1
        (Vec.norm (gradient (one_sample 2) [1] cfg (Xw st) (w st))) st2.
Proof.
  intros Hrho Hacc HK num st st'.
  assert (Hit : (1 mod (K cfg + 1) = K cfg)%nat) by (rewrite HK; reflexivity).
  destruct (mixing_pass_state num (one_sample 2) [1] cfg Hacc 1 Hit)
    as (Hst' & Hbuf & _ & _ & Hc & Hb & HC).
  fold st in Hst', Hbuf, Hc, Hb, HC. fold st' in Hst', Hbuf.
  set (g := gradient (one_sample 2) [1] cfg (Xw st) (w st)) in *.
  set (st2 := step_and_push num (one_sample 2) cfg 1 g _) in *.
  exists st2. repeat split; try assumption.
  - rewrite Hbuf. apply first_event_buffer; assumption.
  - rewrite Hst'. apply mixing_coefficients.
Qed.

(** C3, as the specification has it, fails.  One sample [2], [K = 1], two
    passes.  The buffer holds the iterate [1] of pass 0 in slot 0 and the
    iterate [1 + slope 2] of pass 1 in slot 1, and the solve gives
    [c = [1]].  The candidate the program builds is [1], the oldest
    buffered iterate; leaving the oldest slot out would give
    [1 + slope 2]. *)
Lemma candidate_is_oldest_iterate :
  let num := small_numerics FW_raises in
  let X := one_sample 2 in
  let cfg := plain_config 1 2 in
  exists st,
    run num X [1] cfg = inl st /\
    last_K_w st = [[1]; [1 + slope 2]] /\
    c st = [1] /\
    extrapolate X (last_K_w st) (c st) = [1] /\
    Vec.lincomb 1 (tl (last_K_w st)) (c st) = [1 + slope 2] /\
    [1] <> [1 + slope 2].
Proof.
  intros num X cfg. exists (state_after num X [1] cfg 2).
  assert (Hbuf : last_K_w (state_after num X [1] cfg 2) = [[1]; [1 + slope 2]])
    by (apply first_event_buffer; reflexivity).
  assert (Hc : c (state_after num X [1] cfg 2) = [1]).
  { destruct (first_event_coefficients FW_raises cfg eq_refl eq_refl eq_refl)
      as (st2 & _ & _ & _ & Hbuf2 & Hm).
    fold num X in Hm.
    unfold coefficients, gram_matrix in Hm. rewrite Hbuf2 in Hm.
    cbn [C0 reg_amount plain_config K cfg] in Hm.
    rewrite gram_first_event in Hm.
    cbn [linalg_solve num small_numerics solve_small Vec.ones repeat] in Hm.
    pose proof (slope_pos 2) as Ha.
    destruct (Req_dec_T (slope 2 * slope 2) 0) as [H0 | Hne]; [nra |].
    assert (Hcc : c (state_after num X [1] cfg 2)
                  = normalize [1 / (slope 2 * slope 2)]) by congruence.
    rewrite Hcc. unfold normalize. cbn. f_equal. field. nra. }
  repeat split.
  - apply plain_config_runs. discriminate.
  - exact Hbuf.
  - exact Hc.
  - rewrite Hbuf, Hc. cbn. f_equal. ring.
  - rewrite Hbuf, Hc. cbn. f_equal. ring.
  - intros H. pose proof (slope_pos 2). injection H. lra.
Qed.

Lemma candidate_leaves_out_newest_witness :
  let num := small_numerics FW_raises in
  let cfg := plain_config 1 2 in
  extrapolate (one_sample 2)
    (last_K_w (state_after num (one_sample 2) [1] cfg 2))
    (Vec.onehot_last 1)
  = plain_iterate num (one_sample 2) [1] cfg
      (state_after num (one_sample 2) [1] cfg 0).
Proof.
  exact (proj2 (proj2 (proj2 (proj2 (proj2
    (candidate_leaves_out_newest (small_numerics FW_raises) (one_sample 2)
       [1] (plain_config 1 2) 1 eq_refl (Nat.neq_succ_0 0) eq_refl
       (Forall_cons [2] eq_refl (Forall_nil _)))))))).
Defined.

(** C2, as the specification has it, fails.  One sample [2], [K = 1], a
    radius bound, and a constrained solve that breaks down.  After the
    first pass the coefficient vector is [[-1]]; the second pass mixes,
    the solve raises, and the coefficient vector is [[1]]: the previous
    one has not been retained. *)
Lemma failed_constrained_solve_replaces_coefficients :
  let num := small_numerics FW_raises in
  let X := one_sample 2 in
  exists st1 st2,
    run num X [1] (constrained_config 1 1 1 false) = inl st1 /\
    run num X [1] (constrained_config 1 2 1 false) = inl st2 /\
    (forall G c_ t C n, FW num G c_ t C n = None) /\
    c st1 = [-1] /\ c st2 = [1] /\ c st2 <> c st1.
Proof.
  intros num X.
  set (cfg1 := constrained_config 1 1 1 false).
  set (cfg2 := constrained_config 1 2 1 false).
  exists (state_after num X [1] cfg1 1), (state_after num X [1] cfg2 2).
  assert (H1 : c (state_after num X [1] cfg1 1) = [-1]).
  { rewrite plain_pass_keeps_coefficients by (cbn; discriminate).
    reflexivity. }
  assert (H2 : c (state_after num X [1] cfg2 2) = [1]).
  { destruct (first_event_coefficients FW_raises cfg2 eq_refl eq_refl eq_refl)
      as (st2 & _ & Hb & HC & _ & Hm).
    fold num X in Hm.
    unfold coefficients, radius_continuation in Hm.
    cbn [C0 cfg2 constrained_config] in Hm.
    destruct (border st2); cbn [num small_numerics FW FW_raises] in Hm;
      cbv beta iota in Hm; inversion Hm; reflexivity. }
  repeat split; try assumption.
  - apply constrained_config_runs. discriminate.
  - apply constrained_config_runs. discriminate.
  - rewrite H1, H2. intros H. injection H. lra.
Qed.

Lemma failed_solve_at_mixing_pass_witness :
  let num := small_numerics FW_raises in
  let cfg := constrained_config 1 2 1 false in
  let st := state_after num (one_sample 2) [1] cfg 1 in
  let st' := state_after num (one_sample 2) [1] cfg 2 in
  c st' = Vec.onehot_last 1 /\
  border st' = border st /\
  C_prev st'
  = fst (radius_continuation st
           (radius_candidate num (one_sample 2) cfg 1
              (Vec.norm (gradient (one_sample 2) [1] cfg (Xw st) (w st))) 1)) /\
  extrapolate (one_sample 2) (last_K_w st') (c st') = w st /\
  w st' = plain_iterate num (one_sample 2) [1] cfg st /\
  Xw st' = Vec.matvec (rows (one_sample 2))
             (plain_iterate num (one_sample 2) [1] cfg st).
Proof.
  exact (proj2
    (failed_solve_at_mixing_pass (small_numerics FW_raises) (one_sample 2)
       [1] (constrained_config 1 2 1 false) 1 eq_refl (Nat.neq_succ_0 0)
       eq_refl (Forall_cons [2] eq_refl (Forall_nil _)))
    1 eq_refl eq_refl).
Defined.

Lemma safeguard_compares_with_start_of_pass_witness :
  let num := small_numerics FW_raises in
  let cfg := plain_config 1 2 in
  let st := state_after num (one_sample 2) [1] cfg 1 in
  let st' := iteration num (one_sample 2) [1] cfg 1 st in
  w st' = plain_iterate num (one_sample 2) [1] cfg st \/
  grad_norm_at (one_sample 2) [1] cfg (w st')
  < grad_norm_at (one_sample 2) [1] cfg (w st).
Proof.
  exact (proj2 (proj2
    (safeguard_compares_with_start_of_pass (small_numerics FW_raises)
       (one_sample 2) [1] (plain_config 1 2) 1
       (state_after (small_numerics FW_raises) (one_sample 2) [1]
          (plain_config 1 2) 1)
       eq_refl eq_refl
       (state_after_cache (small_numerics FW_raises) (one_sample 2) [1]
          (plain_config 1 2) 0)))).
Defined.

(** C9, as the specification has it, fails.  One sample [2], [K = 1], a
    radius bound and the regularization amount [1].  At the mixing pass
    [R^T R] is the one-by-one matrix of [slope 2 * slope 2], and whatever
    the constrained solver is, it is called on twice that: the Tikhonov
    term has been added on the constrained path. *)
Lemma regularization_reaches_constrained_solve :
  let X := one_sample 2 in
  let cfg := regularized_config 1 2 (Some 1) 1 in
  exists RTR G : matrix,
    RTR = [[slope 2 * slope 2]] /\
    G = [[slope 2 * slope 2 + 1 * (slope 2 * slope 2)]] /\
    G <> RTR /\
    forall fw,
      let num := small_numerics fw in
      let st' := state_after num X [1] cfg 2 in
      run num X [1] cfg = inl st' /\
      gram (residuals (K cfg) (last_K_w st')) = RTR /\
      (c st', border st', C_prev st')
      = match fw G [1] (fw_tolerance cfg (last_K_w st')) (Some 1) 5000%nat with
        | Some (c', _, border') => (c', border', Some 1)
        | None => ([1], true, Some 1)
        end.
Proof.
  intros X cfg.
  exists [[slope 2 * slope 2]],
         [[slope 2 * slope 2 + 1 * (slope 2 * slope 2)]].
  pose proof (slope_pos 2) as Ha.
  split; [reflexivity | split; [reflexivity | split]].
  { intros H. injection H. nra. }
  intros fw num st'. subst st' num X. split; [| split].
  - apply regularized_config_runs. discriminate.
  - rewrite (first_event_buffer fw cfg eq_refl eq_refl eq_refl).
    apply gram_first_event.
  - destruct (first_event_coefficients fw cfg eq_refl eq_refl eq_refl)
      as (st2 & Hc & Hb & HC & Hbuf2 & Hm).
    rewrite (first_event_buffer fw cfg eq_refl eq_refl eq_refl).
    rewrite Hm.
    unfold coefficients, gram_matrix, radius_continuation, radius_candidate,
      fw_tolerance.
    rewrite Hbuf2, Hb, HC.
    assert (Hb1 : border (state_after (small_numerics fw) (one_sample 2) [1]
                            cfg 1) = true).
    { destruct (iteration_plain (small_numerics fw) (one_sample 2) [1] cfg 0
                  (init (one_sample 2) [1] cfg))
        as (_ & _ & _ & Hb0 & _ & _ & Hit).
      cbn [state_after]. rewrite Hit. exact Hb0. }
    rewrite Hb1.
    cbn [C0 reg_amount adaptive_C cfg regularized_config K norm_ord2
         small_numerics FW].
    rewrite gram_first_event.
    assert (Hfro : frobenius [[slope 2 * slope 2]] = slope 2 * slope 2)
      by (apply frobenius_column; nra).
    rewrite Hfro. reflexivity.
Qed.

Lemma regularization_before_both_solves_witness :
  let num := small_numerics FW_stays in
  let cfg := regularized_config 1 2 (Some 1) 1 in
  let st := init (one_sample 2) [1] cfg in
  let RTR := gram (residuals 1 (last_K_w st)) in
  entry 0 0 (add_diag (1 * norm_ord2 num RTR) RTR)
  = entry 0 0 RTR + 1 * norm_ord2 num RTR.
Proof.
  exact (proj1
    (regularization_before_both_solves (small_numerics FW_stays)
       (one_sample 2) (regularized_config 1 2 (Some 1) 1) 1 1
       (init (one_sample 2) [1] (regularized_config 1 2 (Some 1) 1)) 1
       eq_refl)
    0%nat 0%nat (Nat.lt_0_succ 0) (Nat.lt_0_succ 0)).
Defined.

Lemma coefficients_sum_to_one_witness :
  let num := small_numerics FW_stays in
  let cfg := constrained_config 1 2 1 false in
  let st := init (one_sample 2) [1] cfg in
  let st' := mixing num (one_sample 2) [1] cfg 1 [-1] st in
  (Vec.sum (c st') = 1 \/
   (C0 cfg = None /\
    linalg_solve num (gram_matrix num cfg (last_K_w st)) (Vec.ones (K cfg))
    = None /\ c st' = c st)) /\
  (Vec.sum (c st) = 1 -> Vec.sum (c st') = 1).
Proof.
  refine (coefficients_sum_to_one (small_numerics FW_stays) (one_sample 2)
            [1] (constrained_config 1 2 1 false) 1 [-1]
            (init (one_sample 2) [1] (constrained_config 1 2 1 false))
            (Nat.neq_succ_0 0) _ _).
  - intros H. discriminate H.
  - intros G c_start t C n c1 gap b Hstart H. inversion H. subst c1.
    exact Hstart.
Defined.

(** The Gram matrix of the first mixing pass of the sample [2] with
    [K = 1], and [solve_small] on it. *)
Section FirstEventSolve.

Local Abbreviation num := (small_numerics FW_raises).
Local Abbreviation cfg := (plain_config 1 2).
Local Abbreviation st := (state_after num (one_sample 2) [1] cfg 2).
Local Abbreviation G := (gram_matrix num cfg (last_K_w st)).

Lemma first_event_gram : G = [[slope 2 * slope 2]].
Proof.
  unfold gram_matrix. cbn [reg_amount plain_config K].
  rewrite (first_event_buffer FW_raises cfg eq_refl eq_refl eq_refl).
  apply gram_first_event.
Qed.

Lemma first_event_solve_sound z :
  linalg_solve num G (Vec.ones (K cfg)) = Some z ->
  length z = K cfg /\ Vec.matvec G z = Vec.ones (K cfg).
Proof.
  rewrite first_event_gram. cbn. pose proof (slope_pos 2) as Ha.
  destruct (Req_dec_T (slope 2 * slope 2) 0) as [H0 | Hne]; [nra |].
  intros H. injection H as <-. split; [reflexivity |].
  unfold Vec.dot. cbn. f_equal. field. lra.
Qed.

Lemma first_event_nonsingular : nonsingular (K cfg) G.
Proof.
  rewrite first_event_gram. pose proof (slope_pos 2) as Ha.
  intros [| u0 [| u1 u]] [| v0 [| v1 v]] Hu Hv H; cbn in Hu, Hv;
    try discriminate.
  unfold Vec.matvec, Vec.dot in H. cbn in H. injection H as H.
  f_equal. apply (Rmult_eq_reg_l (slope 2 * slope 2)); [lra | nra].
Qed.

Lemma first_event_solve_complete :
  nonsingular (K cfg) G ->
  linalg_solve num G (Vec.ones (K cfg)) <> None.
Proof.
  intros _. rewrite first_event_gram. cbn. pose proof (slope_pos 2) as Ha.
  destruct (Req_dec_T (slope 2 * slope 2) 0) as [H0 | Hne]; [nra |].
  discriminate.
Qed.

End FirstEventSolve.

(** ** The solver on two samples that cancel

    The design [balanced_design] with the labels [balanced_labels]: the
    gradient vanishes at the origin, so with no tolerance to stop on the
    iterates stay there and every residual is zero. *)

Section Balanced.
Local Abbreviation num := (small_numerics FW_raises).
Local Abbreviation cfg := (plain_config 1 2).
Local Abbreviation Xb := balanced_design.
Local Abbreviation yb := balanced_labels.
Local Abbreviation after := (state_after num Xb yb cfg).

Lemma balanced_gradient : gradient Xb yb cfg [0; 0] [0] = [0].
Proof.
  unfold gradient. cbn.
  replace (1 * 0) with 0 by ring. replace (-1 * 0) with 0 by ring.
  rewrite exp_0. f_equal. field.
Qed.

Lemma balanced_matvec : Vec.matvec (rows Xb) [0] = [0; 0].
Proof. cbn. unfold Vec.dot. cbn. repeat (f_equal; try ring). Qed.

Lemma balanced_plain st :
  w st = [0] -> Xw st = [0; 0] -> plain_iterate num Xb yb cfg st = [0].
Proof.
  intros Hw HXw. unfold plain_iterate, descent.
  rewrite Hw, HXw, balanced_gradient. cbn. f_equal. ring.
Qed.

Lemma balanced_solve_fails :
  linalg_solve num (gram_matrix num cfg [[0]; [0]]) (Vec.ones (K cfg)) = None.
Proof.
  unfold gram_matrix, gram, residuals. cbn. unfold Vec.dot. cbn.
  destruct (Req_dec_T _ 0) as [_ | Hne]; [reflexivity |].
  exfalso. apply Hne. ring.
Qed.

Lemma balanced_invariant n :
  w (after n) = [0] /\ Xw (after n) = [0; 0] /\ c (after n) = [-1] /\
  last_K_w (after n) = [[0]; [0]].
Proof.
  induction n as [| n (Hw & HXw & Hc & Hbuf)].
  - cbn. repeat split; reflexivity.
  - destruct (iteration_plain num Xb yb cfg n (after n))
      as (Hw2 & HXw2 & Hc2 & _ & _ & Hbuf2 & Hit).
    set (g := gradient Xb yb cfg (Xw (after n)) (w (after n))) in *.
    set (st2 := step_and_push num Xb cfg n g _) in *.
    rewrite (balanced_plain _ Hw HXw) in Hw2, HXw2, Hbuf2.
    rewrite balanced_matvec in HXw2. rewrite Hc in Hc2.
    assert (Hb2 : last_K_w st2 = [[0]; [0]]).
    { rewrite Hbuf2, Hbuf. cbn [use_acc plain_config K Nat.add].
      pose proof (Nat.mod_upper_bound n 2 ltac:(lia)) as Hlt.
      destruct (n mod 2)%nat as [| [| m]]; [reflexivity | reflexivity | lia]. }
    cbn [state_after]. rewrite Hit.
    destruct (use_acc cfg && (n mod (K cfg + 1) =? K cfg)%nat).
    + pose proof (mixing_coefficients num Xb yb cfg n g st2) as Hm.
      unfold coefficients in Hm. cbn [C0 plain_config] in Hm.
      rewrite Hb2, balanced_solve_fails in Hm.
      assert (Hc' : c (mixing num Xb yb cfg n g st2) = [-1]) by congruence.
      rewrite mixing_keeps_buffer.
      destruct (mixing_outcome num Xb yb cfg n g st2) as [[Hwa HXwa] | [Hwr HXwr]].
      * rewrite Hc', Hb2 in Hwa, HXwa.
        assert (He : extrapolate Xb [[0]; [0]] [-1] = [0])
          by (cbn; f_equal; ring).
        rewrite He in Hwa, HXwa. rewrite balanced_matvec in HXwa.
        repeat split; assumption.
      * repeat split; congruence.
    + repeat split; assumption.
Qed.

End Balanced.

(** C4, as the specification has it, fails.  Two samples at [1] with
    labels [+1] and [-1], [K = 1], no tolerance, two passes.  Every
    iterate is the origin, the Gram matrix of the mixing pass is zero,
    [numpy.linalg.solve] raises, and the mixed iterate is built with the
    vector the program started from, [[-1]], whose sum is [-1]. *)
Lemma failed_first_solve_sum_minus_one :
  let num := small_numerics FW_raises in
  let cfg := plain_config 1 2 in
  exists st,
    run num balanced_design balanced_labels cfg = inl st /\
    linalg_solve num (gram_matrix num cfg (last_K_w st)) (Vec.ones (K cfg))
    = None /\
    c st = [-1] /\ Vec.sum (c st) = -1 /\ Vec.sum (c st) <> 1.
Proof.
  intros num cfg.
  exists (state_after num balanced_design balanced_labels cfg 2).
  destruct (balanced_invariant 2) as (_ & _ & Hc & Hbuf).
  subst num cfg. rewrite Hc, Hbuf. repeat split.
  - apply plain_config_runs. discriminate.
  - apply balanced_solve_fails.
  - cbn. lra.
  - cbn. lra.
Qed.

(** ** Enclosures of the exponential *)

Lemma exp_double_lower x l l2 :
  0 <= l -> l <= exp x -> l2 <= l * l -> l2 <= exp (2 * x).
Proof.
  intros Hl Hx H2. replace (2 * x) with (x + x) by ring. rewrite exp_plus.
  apply Rle_trans with (l * l); [exact H2 |].
  apply Rmult_le_compat; assumption.
Qed.

Lemma exp_double_upper x u u2 :
  exp x <= u -> u * u <= u2 -> exp (2 * x) <= u2.
Proof.
  intros Hx H2. replace (2 * x) with (x + x) by ring. rewrite exp_plus.
  pose proof (exp_pos x) as Hp.
  apply Rle_trans with (u * u); [| exact H2].
  apply Rmult_le_compat; lra.
Qed.

Lemma exp_upper_small x : x < 1 -> exp x <= / (1 - x).
Proof.
  intros Hx. pose proof (exp_ineq1_le (- x)) as H.
  replace x with (- - x) at 1 by ring. rewrite exp_Ropp.
  apply Rinv_le_contravar; lra.
Qed.

Lemma Rle_Rinv_bound x u : 0 < x -> 1 <= u * x -> / x <= u.
Proof.
  intros Hx H. apply Rmult_le_reg_r with x; [exact Hx |].
  rewrite Rinv_l by lra. exact H.
Qed.

Lemma exp_monotone x y : x <= y -> exp x <= exp y.
Proof.
  intros [H | ->]; [left; apply exp_increasing, H | right; reflexivity].
Qed.

(** [exp 2], from [1 + x <= exp x] at [x = 1/128] and eight squarings. *)
Lemma exp_2_bounds : (7331579 / 1000000) <= exp 2 <= (3725413 / 500000).
Proof.
assert (L0 : (129 / 128) <= exp (1 / 128))
  by (pose proof (exp_ineq1_le (1 / 128)); lra).
assert (L1 : (507843 / 500000) <= exp (1 / 64)).
{ replace (1 / 64) with (2 * (1 / 128)) by lra.
  apply (exp_double_lower _ (129 / 128)); [lra | exact L0 | lra]. }
assert (L2 : (515809 / 500000) <= exp (1 / 32)).
{ replace (1 / 32) with (2 * (1 / 64)) by lra.
  apply (exp_double_lower _ (507843 / 500000)); [lra | exact L1 | lra]. }
assert (L3 : (212847 / 200000) <= exp (1 / 16)).
{ replace (1 / 16) with (2 * (1 / 32)) by lra.
  apply (exp_double_lower _ (515809 / 500000)); [lra | exact L2 | lra]. }
assert (L4 : (283149 / 250000) <= exp (1 / 8)).
{ replace (1 / 8) with (2 * (1 / 16)) by lra.
  apply (exp_double_lower _ (212847 / 200000)); [lra | exact L3 | lra]. }
assert (L5 : (1282773 / 1000000) <= exp (1 / 4)).
{ replace (1 / 4) with (2 * (1 / 8)) by lra.
  apply (exp_double_lower _ (283149 / 250000)); [lra | exact L4 | lra]. }
assert (L6 : (822753 / 500000) <= exp (1 / 2)).
{ replace (1 / 2) with (2 * (1 / 4)) by lra.
  apply (exp_double_lower _ (1282773 / 1000000)); [lra | exact L5 | lra]. }
assert (L7 : (2707689 / 1000000) <= exp 1).
{ replace 1 with (2 * (1 / 2)) by lra.
  apply (exp_double_lower _ (822753 / 500000)); [lra | exact L6 | lra]. }
assert (L8 : (7331579 / 1000000) <= exp 2).
{ replace 2 with (2 * 1) by lra.
  apply (exp_double_lower _ (2707689 / 1000000)); [lra | exact L7 | lra]. }
assert (U0 : exp (1 / 128) <= (8063 / 8000)).
{ apply Rle_trans with (/ (1 - (1 / 128))); [apply exp_upper_small; lra |].
  apply Rle_Rinv_bound; lra. }
assert (U1 : exp (1 / 64) <= (1015813 / 1000000)).
{ replace (1 / 64) with (2 * (1 / 128)) by lra.
  apply (exp_double_upper _ (8063 / 8000)); [exact U0 | lra]. }
assert (U2 : exp (1 / 32) <= (1031877 / 1000000)).
{ replace (1 / 32) with (2 * (1 / 64)) by lra.
  apply (exp_double_upper _ (1015813 / 1000000)); [exact U1 | lra]. }
assert (U3 : exp (1 / 16) <= (1064771 / 1000000)).
{ replace (1 / 16) with (2 * (1 / 32)) by lra.
  apply (exp_double_upper _ (1031877 / 1000000)); [exact U2 | lra]. }
assert (U4 : exp (1 / 8) <= (566869 / 500000)).
{ replace (1 / 8) with (2 * (1 / 16)) by lra.
  apply (exp_double_upper _ (1064771 / 1000000)); [exact U3 | lra]. }
assert (U5 : exp (1 / 4) <= (642681 / 500000)).
{ replace (1 / 4) with (2 * (1 / 8)) by lra.
  apply (exp_double_upper _ (566869 / 500000)); [exact U4 | lra]. }
assert (U6 : exp (1 / 2) <= (413039 / 250000)).
{ replace (1 / 2) with (2 * (1 / 4)) by lra.
  apply (exp_double_upper _ (642681 / 500000)); [exact U5 | lra]. }
assert (U7 : exp 1 <= (136481 / 50000)).
{ replace 1 with (2 * (1 / 2)) by lra.
  apply (exp_double_upper _ (413039 / 250000)); [exact U6 | lra]. }
assert (U8 : exp 2 <= (3725413 / 500000)).
{ replace 2 with (2 * 1) by lra.
  apply (exp_double_upper _ (136481 / 50000)); [exact U7 | lra]. }
  split; assumption.
Qed.

(** Enclosures of [exp] at twice the bounds of [slope 2]. *)
Lemma exp_low_bound : (159413 / 100000) <= exp (1183 / 2500).
Proof.
assert (L0 : (41183 / 40000) <= exp (1183 / 40000))
  by (pose proof (exp_ineq1_le (1183 / 40000)); lra).
assert (L1 : (132503 / 125000) <= exp (1183 / 20000)).
{ replace (1183 / 20000) with (2 * (1183 / 40000)) by lra.
  apply (exp_double_lower _ (41183 / 40000)); [lra | exact L0 | lra]. }
assert (L2 : (22473 / 20000) <= exp (1183 / 10000)).
{ replace (1183 / 10000) with (2 * (1183 / 20000)) by lra.
  apply (exp_double_lower _ (132503 / 125000)); [lra | exact L1 | lra]. }
assert (L3 : (1262589 / 1000000) <= exp (1183 / 5000)).
{ replace (1183 / 5000) with (2 * (1183 / 10000)) by lra.
  apply (exp_double_lower _ (22473 / 20000)); [lra | exact L2 | lra]. }
assert (L4 : (159413 / 100000) <= exp (1183 / 2500)).
{ replace (1183 / 2500) with (2 * (1183 / 5000)) by lra.
  apply (exp_double_lower _ (1262589 / 1000000)); [lra | exact L3 | lra]. }
  assumption.
Qed.

Lemma exp_high_bound : exp (2401 / 5000) <= (1628363 / 1000000).
Proof.
assert (U0 : exp (2401 / 80000) <= (515471 / 500000)).
{ apply Rle_trans with (/ (1 - (2401 / 80000))); [apply exp_upper_small; lra |].
  apply Rle_Rinv_bound; lra. }
assert (U1 : exp (2401 / 40000) <= (531421 / 500000)).
{ replace (2401 / 40000) with (2 * (2401 / 80000)) by lra.
  apply (exp_double_upper _ (515471 / 500000)); [exact U0 | lra]. }
assert (U2 : exp (2401 / 20000) <= (564817 / 500000)).
{ replace (2401 / 20000) with (2 * (2401 / 40000)) by lra.
  apply (exp_double_upper _ (531421 / 500000)); [exact U1 | lra]. }
assert (U3 : exp (2401 / 10000) <= (1276073 / 1000000)).
{ replace (2401 / 10000) with (2 * (2401 / 20000)) by lra.
  apply (exp_double_upper _ (564817 / 500000)); [exact U2 | lra]. }
assert (U4 : exp (2401 / 5000) <= (1628363 / 1000000)).
{ replace (2401 / 5000) with (2 * (2401 / 10000)) by lra.
  apply (exp_double_upper _ (1276073 / 1000000)); [exact U3 | lra]. }
  assumption.
Qed.

(** ** A mixed iterate that is accepted and is worse than the plain one

    The sample [2] with [K = 2] and the regularization amount [1/10].
    The first mixing pass is pass 2; it starts from [1 + a] and its plain
    iterate is [1 + a + b], for [a = slope 2] and
    [b = slope (2 (1 + a))]. *)

Lemma slope_between p lo hi l u :
  lo <= exp p <= hi -> 0 <= l -> 0 <= u ->
  l * (1 + hi) <= 2 -> 2 <= u * (1 + lo) ->
  l <= slope p <= u.
Proof.
  intros [Hlo Hhi] Hl Hu Hlow Hup. unfold slope.
  pose proof (exp_pos p) as Hp.
  assert (H1 : l * (1 + exp p) <= l * (1 + hi))
    by (apply Rmult_le_compat_l; lra).
  assert (H2 : u * (1 + lo) <= u * (1 + exp p))
    by (apply Rmult_le_compat_l; lra).
  split.
  - apply Rmult_le_reg_r with (1 + exp p); [lra |].
    unfold Rdiv. rewrite Rmult_assoc, Rinv_l by lra. lra.
  - apply Rmult_le_reg_r with (1 + exp p); [lra |].
    unfold Rdiv. rewrite Rmult_assoc, Rinv_l by lra. lra.
Qed.

Lemma first_step_bounds : 2366 / 10000 <= slope 2 <= 2401 / 10000.
Proof.
  apply (slope_between 2 _ _ _ _ exp_2_bounds); lra.
Qed.

Lemma second_step_bounds :
  1522 / 10000 <= slope (2 * (1 + slope 2)) <= 1577 / 10000.
Proof.
  destruct first_step_bounds as [Hal Hau].
  destruct exp_2_bounds as [HEl HEu].
  assert (HFl : 159413 / 100000 <= exp (2 * slope 2)).
  { apply Rle_trans with (1 := exp_low_bound). apply exp_monotone. lra. }
  assert (HFu : exp (2 * slope 2) <= 1628363 / 1000000).
  { apply Rle_trans with (2 := exp_high_bound). apply exp_monotone. lra. }
  assert (Hprod : exp (2 * (1 + slope 2)) = exp 2 * exp (2 * slope 2)).
  { rewrite <- exp_plus. f_equal. ring. }
  apply (slope_between _ (7331579 / 1000000 * (159413 / 100000))
           (3725413 / 500000 * (1628363 / 1000000))); try lra.
  rewrite Hprod. pose proof (exp_pos 2). pose proof (exp_pos (2 * slope 2)).
  split; nra.
Qed.

Section ThirdPass.
Local Abbreviation num := (small_numerics FW_raises).
Local Abbreviation X2 := (one_sample 2).
Local Abbreviation cfg := (regularized_config 2 3 None (/ 10)).
Local Abbreviation after := (state_after num X2 [1] cfg).
Local Abbreviation a := (slope 2).
Local Abbreviation b := (slope (2 * (1 + slope 2))).

Lemma third_start :
  w (after 2) = [1 + a] /\ Xw (after 2) = [2 * (1 + a)] /\
  plain_iterate num X2 [1] cfg (after 2) = [1 + a + b].
Proof.
  destruct (first_pass_sample_2 FW_raises cfg eq_refl ltac:(discriminate))
    as (_ & Hw1 & HXw1).
  destruct (plain_pass_sample_2 FW_raises cfg eq_refl 1 1 2
              ltac:(cbn; discriminate) Hw1 HXw1) as (_ & Hw2 & HXw2).
  repeat split; try assumption.
  apply (plain_iterate_sample_2 FW_raises cfg eq_refl _ _ _ Hw2 HXw2).
Qed.

Lemma third_buffer : last_K_w (after 3) = [[1]; [1 + a]; [1 + a + b]].
Proof.
  rewrite (mixing_pass_buffer num X2 [1] cfg eq_refl ltac:(discriminate) 2 eq_refl).
  cbn [K regularized_config Nat.sub Nat.add seq map].
  rewrite (proj1 (first_pass_sample_2 FW_raises cfg eq_refl ltac:(discriminate))).
  rewrite (second_iterate_sample_2 FW_raises cfg eq_refl ltac:(discriminate)).
  rewrite (proj2 (proj2 third_start)). reflexivity.
Qed.

Lemma third_gram :
  gram_matrix num cfg [[1]; [1 + a]; [1 + a + b]]
  = [[a * a + / 10 * (a * a + b * b); a * b];
     [a * b; b * b + / 10 * (a * a + b * b)]].
Proof.
  unfold gram_matrix. cbn [reg_amount regularized_config K].
  assert (HR : gram (residuals 2 [[1]; [1 + a]; [1 + a + b]])
               = [[a * a; a * b]; [a * b; b * b]]).
  { unfold gram, residuals. cbn. unfold Vec.dot. cbn.
    repeat (f_equal; try ring). }
  rewrite HR. cbn [norm_ord2 small_numerics].
  assert (HF : frobenius [[a * a; a * b]; [a * b; b * b]] = a * a + b * b).
  { unfold frobenius, Vec.dot. cbn.
    replace (a * a * (a * a) + (a * b * (a * b) + 0) +
             (a * b * (a * b) + (b * b * (b * b) + 0) + 0))
      with ((a * a + b * b) * (a * a + b * b)) by ring.
    apply sqrt_square. nra. }
  rewrite HF. unfold add_diag. cbn. reflexivity.
Qed.

End ThirdPass.

(** ** The unconstrained solve on a Gram matrix of order two *)

Lemma solve_small_length G b z :
  solve_small G b = Some z -> length z = length b.
Proof.
  unfold solve_small.
  destruct G as [| [| g00 [| g01 [| ? ?]]] [| [| g10 [| g11 [| ? ?]]] [| ? ?]]];
    destruct b as [| b0 [| b1 [| ? ?]]]; try discriminate.
  - destruct (Req_dec_T g00 0); [discriminate |].
    intros H. injection H as <-. reflexivity.
  - destruct (Req_dec_T (g00 * g11 - g01 * g10) 0); [discriminate |].
    intros H. injection H as <-. reflexivity.
Qed.

Lemma nonsingular_order_two g00 g01 g10 g11 :
  g00 * g11 - g01 * g10 <> 0 ->
  nonsingular 2 [[g00; g01]; [g10; g11]].
Proof.
  intros Hd [| u0 [| u1 [| ? ?]]] [| v0 [| v1 [| ? ?]]] Hu Hv H;
    cbn in Hu, Hv; try discriminate.
  unfold Vec.matvec, Vec.dot in H. cbn in H.
  injection H as H1 H2.
  assert (H1' : g00 * u0 + g01 * u1 = g00 * v0 + g01 * v1) by lra.
  assert (H2' : g10 * u0 + g11 * u1 = g10 * v0 + g11 * v1) by lra.
  assert (E0 : (g00 * g11 - g01 * g10) * u0 = (g00 * g11 - g01 * g10) * v0).
  { replace ((g00 * g11 - g01 * g10) * u0)
      with (g11 * (g00 * u0 + g01 * u1) - g01 * (g10 * u0 + g11 * u1))
      by ring.
    rewrite H1', H2'. ring. }
  assert (E1 : (g00 * g11 - g01 * g10) * u1 = (g00 * g11 - g01 * g10) * v1).
  { replace ((g00 * g11 - g01 * g10) * u1)
      with (g00 * (g10 * u0 + g11 * u1) - g10 * (g00 * u0 + g01 * u1))
      by ring.
    rewrite H1', H2'. ring. }
  apply Rmult_eq_reg_l in E0; [| exact Hd].
  apply Rmult_eq_reg_l in E1; [| exact Hd].
  subst. reflexivity.
Qed.

(** The regularized Gram matrix of the third pass of the sample [2] with
    [K = 2], and [solve_small] on it. *)
Section ThirdPassSolve.

Local Abbreviation num := (small_numerics FW_raises).
Local Abbreviation cfg := (regularized_config 2 3 None (/ 10)).
Local Abbreviation st := (state_after num (one_sample 2) [1] cfg 3).
Local Abbreviation G := (gram_matrix num cfg (last_K_w st)).
Local Abbreviation a := (slope 2).
Local Abbreviation b := (slope (2 * (1 + slope 2))).

Lemma third_gram_value :
  G = [[a * a + / 10 * (a * a + b * b); a * b];
       [a * b; b * b + / 10 * (a * a + b * b)]].
Proof. rewrite third_buffer. apply third_gram. Qed.

Lemma third_determinant :
  (a * a + / 10 * (a * a + b * b)) * (b * b + / 10 * (a * a + b * b))
  - a * b * (a * b) <> 0.
Proof.
  pose proof (slope_pos 2) as Ha.
  pose proof (slope_pos (2 * (1 + slope 2))) as Hb.
  assert (0 < a * a) by nra. assert (0 < b * b) by nra.
  assert (0 < / 10 * (a * a + b * b)) by nra.
  nra.
Qed.

Lemma third_solve_sound z :
  linalg_solve num G (Vec.ones (K cfg)) = Some z ->
  length z = K cfg /\ Vec.matvec G z = Vec.ones (K cfg).
Proof.
  intros H. split.
  - apply solve_small_length in H. exact H.
  - apply solve_small_sound. exact H.
Qed.

Lemma third_nonsingular : nonsingular (K cfg) G.
Proof.
  rewrite third_gram_value. apply nonsingular_order_two, third_determinant.
Qed.

Lemma third_solve_complete :
  nonsingular (K cfg) G ->
  linalg_solve num G (Vec.ones (K cfg)) <> None.
Proof.
  intros _. rewrite third_gram_value.
  cbn [linalg_solve small_numerics solve_small Vec.ones repeat K
       regularized_config].
  destruct (Req_dec_T _ 0) as [H0 | Hne];
    [exact (False_ind _ (third_determinant H0)) | discriminate].
Qed.

End ThirdPassSolve.

(** The coefficients of a mixing event of order two, on the buffer of
    the third pass of the sample [2]. *)
Lemma unconstrained_coefficients_witness :
  let num := small_numerics FW_raises in
  let cfg := regularized_config 2 3 None (/ 10) in
  let st := state_after num (one_sample 2) [1] cfg 3 in
  let G := gram_matrix num cfg (last_K_w st) in
  let st' := mixing num (one_sample 2) [1] cfg 5 [-1] st in
  exists z,
    length z = 2%nat /\
    Vec.matvec G z = [1; 1] /\
    (forall z', length z' = 2%nat -> Vec.matvec G z' = [1; 1] -> z' = z) /\
    c st' = map (fun zi => zi / Vec.sum z) z /\
    (Vec.sum z <> 0 -> Vec.sum (c st') = 1).
Proof.
  exact (unconstrained_coefficients (small_numerics FW_raises) (one_sample 2)
           [1] (regularized_config 2 3 None (/ 10)) 5 [-1]
           (state_after (small_numerics FW_raises) (one_sample 2) [1]
              (regularized_config 2 3 None (/ 10)) 3)
           eq_refl third_solve_sound third_solve_complete
           third_nonsingular).
Defined.

Lemma mixed_iterate_between a b :
  2366 / 10000 <= a <= 2401 / 10000 ->
  1522 / 10000 <= b <= 1577 / 10000 ->
  let s := / 10 * (a * a + b * b) in
  let d := (a * a + s) * (b * b + s) - a * b * (a * b) in
  let z := [(1 * (b * b + s) - a * b * 1) / d;
            ((a * a + s) * 1 - 1 * (a * b)) / d] in
  d <> 0 /\
  exists m,
    extrapolate (one_sample 2) [[1]; [1 + a]; [1 + a + b]] (normalize z) = [m] /\
    1 + a < m < 1 + a + b.
Proof.
  intros [Hal Hau] [Hbl Hbu] s d z.
  assert (Haa : 2366 / 10000 * (2366 / 10000) <= a * a <= 2401 / 10000 * (2401 / 10000)) by nra.
  assert (Hbb : 1522 / 10000 * (1522 / 10000) <= b * b <= 1577 / 10000 * (1577 / 10000)) by nra.
  assert (Hab : 2366 / 10000 * (1522 / 10000) <= a * b <= 2401 / 10000 * (1577 / 10000)) by nra.
  assert (Hs : 79 / 10000 <= s <= 83 / 10000) by (unfold s; lra).
  assert (Hd : d = s * (a * a + b * b + s)) by (unfold d; ring).
  assert (Hdpos : 0 < d) by (rewrite Hd; apply Rmult_lt_0_compat; lra).
  set (D := a * a + b * b + 2 * s - 2 * (a * b)).
  set (T := a * b - b * b - s).
  assert (HT : 28 / 10000 <= T <= 69 / 10000) by (unfold T; lra).
  assert (HD : 192 / 10000 <= D) by (unfold D; lra).
  split; [lra |].
  exists (1 + a + a * T / D). split.
  - unfold extrapolate, normalize, z. cbn. f_equal.
    unfold D, T, d. fold s. field.
    fold d. fold D. split; [| lra].
    replace (1 * (b * b + s) - a * b * 1 + ((a * a + s) * 1 - 1 * (a * b)))
      with D by (unfold D; ring). lra.
  - assert (HaT : 0 < a * T <= 2401 / 10000 * (69 / 10000)) by nra.
    assert (HbD : 1522 / 10000 * (192 / 10000) <= b * D) by nra.
    assert (Hq : 0 < a * T / D < b).
    { split.
      - apply Rdiv_lt_0_compat; lra.
      - apply Rmult_lt_reg_r with D; [lra |].
        unfold Rdiv. rewrite Rmult_assoc, Rinv_l by lra. lra. }
    lra.
Qed.

Lemma descent_config_runs fw X y n :
  run (small_numerics fw) X y (descent_config n)
  = inl (state_after (small_numerics fw) X y (descent_config n) n).
Proof.
  apply run_runs; cbn; try lra; try discriminate.
  intros _. lra.
Qed.

(** C1, as the specification has it, fails.  One sample [2], [K = 2], the
    regularization amount [1/10], three passes.  Pass 2 starts from
    [1 + a], steps to the plain iterate [1 + a + b] and mixes.  The mixed
    iterate lies strictly between the two, so its gradient norm is below
    that of [1 + a], which is what the program compares with, and above
    that of the plain iterate: it is accepted, and the loop goes on with
    an iterate whose gradient norm is larger than that of the plain
    iterate, which is also where gradient descent alone arrives in three
    passes. *)
Lemma accepted_iterate_worse_than_plain :
  let num := small_numerics FW_raises in
  let X := one_sample 2 in
  let cfg := regularized_config 2 3 None (/ 10) in
  let st := state_after num X [1] cfg 2 in
  let st' := state_after num X [1] cfg 3 in
  let plain := plain_iterate num X [1] cfg st in
  let w_acc := extrapolate X (last_K_w st') (c st') in
  run num X [1] cfg = inl st' /\
  w st' = w_acc /\
  w st' <> plain /\
  grad_norm_at X [1] cfg w_acc < grad_norm_at X [1] cfg (w st) /\
  grad_norm_at X [1] cfg plain < grad_norm_at X [1] cfg w_acc /\
  exists gd,
    run num X [1] (descent_config 3) = inl gd /\ w gd = plain.
Proof.
  intros num X cfg st st' plain w_acc. subst num X cfg.
  destruct third_start as (Hw & HXw & Hplain).
  fold st in Hw, HXw, Hplain. fold plain in Hplain.
  destruct (mixed_iterate_between _ _ first_step_bounds second_step_bounds)
    as (Hd & m & Hm & Hlo & Hhi).
  assert (Hc : c st'
               = normalize
                   [(1 * (slope (2 * (1 + slope 2)) * slope (2 * (1 + slope 2))
                          + / 10 * (slope 2 * slope 2
                                    + slope (2 * (1 + slope 2))
                                      * slope (2 * (1 + slope 2))))
                     - slope 2 * slope (2 * (1 + slope 2)) * 1)
                    / ((slope 2 * slope 2
                        + / 10 * (slope 2 * slope 2
                                  + slope (2 * (1 + slope 2))
                                    * slope (2 * (1 + slope 2))))
                       * (slope (2 * (1 + slope 2)) * slope (2 * (1 + slope 2))
                          + / 10 * (slope 2 * slope 2
                                    + slope (2 * (1 + slope 2))
                                      * slope (2 * (1 + slope 2))))
                       - slope 2 * slope (2 * (1 + slope 2))
                         * (slope 2 * slope (2 * (1 + slope 2))));
                    ((slope 2 * slope 2
                      + / 10 * (slope 2 * slope 2
                                + slope (2 * (1 + slope 2))
                                  * slope (2 * (1 + slope 2)))) * 1
                     - 1 * (slope 2 * slope (2 * (1 + slope 2))))
                    / ((slope 2 * slope 2
                        + / 10 * (slope 2 * slope 2
                                  + slope (2 * (1 + slope 2))
                                    * slope (2 * (1 + slope 2))))
                       * (slope (2 * (1 + slope 2)) * slope (2 * (1 + slope 2))
                          + / 10 * (slope 2 * slope 2
                                    + slope (2 * (1 + slope 2))
                                      * slope (2 * (1 + slope 2))))
                       - slope 2 * slope (2 * (1 + slope 2))
                         * (slope 2 * slope (2 * (1 + slope 2))))]).
  { destruct (mixing_pass_state (small_numerics FW_raises) (one_sample 2) [1]
                (regularized_config 2 3 None (/ 10)) eq_refl 2 eq_refl)
      as (Hst' & Hbuf & _).
    cbv zeta in Hst', Hbuf.
    set (g := gradient _ _ _ _ _) in *.
    set (st2 := step_and_push _ _ _ _ _ _) in *.
    pose proof (mixing_coefficients (small_numerics FW_raises) (one_sample 2)
                  [1] (regularized_config 2 3 None (/ 10)) 2 g st2) as Hcoef.
    rewrite <- Hst' in Hcoef. unfold coefficients in Hcoef.
    rewrite Hbuf, third_buffer, third_gram in Hcoef.
    cbn [C0 regularized_config K linalg_solve small_numerics solve_small
         Vec.ones repeat] in Hcoef.
    destruct (Req_dec_T _ 0) as [H0 | _] in Hcoef; [contradiction |].
    unfold st'. congruence. }
  assert (Hacc : w_acc = [m]).
  { unfold w_acc. rewrite Hc. unfold st'. rewrite third_buffer. exact Hm. }
  assert (Hgn : forall q,
             grad_norm_at (one_sample 2) [1]
               (regularized_config 2 3 None (/ 10)) [q] = slope (2 * q))
    by (intros q; apply grad_norm_sample_2; reflexivity).
  assert (Hlt : grad_norm_at (one_sample 2) [1]
                  (regularized_config 2 3 None (/ 10)) w_acc
                < grad_norm_at (one_sample 2) [1]
                    (regularized_config 2 3 None (/ 10)) (w st)).
  { rewrite Hacc, Hw, !Hgn. apply slope_decreasing. lra. }
  destruct (safeguard_step (small_numerics FW_raises) (one_sample 2) [1]
              (regularized_config 2 3 None (/ 10)) 2 st eq_refl eq_refl
              (state_after_cache _ _ _ _ 1)) as [Hyes _].
  change (iteration (small_numerics FW_raises) (one_sample 2) [1]
            (regularized_config 2 3 None (/ 10)) 2 st) with st' in Hyes.
  fold w_acc in Hyes.
  destruct (Hyes Hlt) as [Hwst' _].
  split; [apply regularized_config_runs; discriminate |].
  split; [exact Hwst' |].
  split; [rewrite Hwst', Hacc, Hplain; intros H; injection H; lra |].
  split; [exact Hlt |].
  split; [rewrite Hacc, Hplain, !Hgn; apply slope_decreasing; lra |].
  exists (state_after (small_numerics FW_raises) (one_sample 2) [1]
            (descent_config 3) 3).
  split; [apply descent_config_runs |].
  rewrite Hplain.
  destruct (first_pass_sample_2 FW_raises (descent_config 3) eq_refl
              ltac:(discriminate)) as (_ & Hw1 & HXw1).
  destruct (plain_pass_sample_2 FW_raises (descent_config 3) eq_refl 1 1 2
              ltac:(cbn; discriminate) Hw1 HXw1) as (_ & Hw2 & HXw2).
  destruct (plain_pass_sample_2 FW_raises (descent_config 3) eq_refl 2 _ _
              ltac:(cbn; discriminate) Hw2 HXw2) as (_ & Hw3 & _).
  exact Hw3.
Qed.

(** * Beyond the acceleration *)

(** ** The logistic function *)


Lemma div_as_sigmoid y v :
  Vec.div y (map (fun t => 1 + exp t) v)
  = Vec.mul y (map (fun t => sigmoid (- t)) v).
Proof.
  unfold Vec.div, Vec.mul. revert v.
  induction y as [| a y IH]; intros [| t v]; cbn; try reflexivity.
  rewrite IH. f_equal. unfold sigmoid. rewrite Ropp_involutive.
  unfold Rdiv. ring.
Qed.

(** X2.  The gradient of line 104 is the one [sigmoid] would give: the
    weight [y / (1 + exp(y * Xw))] of each sample is
    [y * sigmoid(- y * Xw)], so the gradient is
    [- X.T @ (y * sigmoid(- y * Xw)) + rho * w]. *)
Theorem gradient_through_sigmoid (X : design) (y : vec) (cfg : config)
  (Xw_ w_ : vec) :
  gradient X y cfg Xw_ w_
  = Vec.add
      (Vec.opp
         (Vec.lincomb (n_features X) (rows X)
            (Vec.mul y (map (fun t => sigmoid (- t)) (Vec.mul y Xw_)))))
      (Vec.scale (rho cfg) w_).
Proof. unfold gradient. rewrite div_as_sigmoid. reflexivity. Qed.

(** ** The ways a pass ends *)

Section Outcomes.

Variable num : numerics.
Variable X : design.
Variable y : vec.
Variable cfg : config.

(** What a pass adds to the histories and to the count of clock
    readings. *)
Lemma log_metric_histories it g st :
  let st' := fst (log_metric num cfg it g st) in
  if Nat.eqb (it mod f_grad cfg) 0
  then E st' = E st ++ [Vec.norm g] /\
       T st' = T st ++ [clock num (reads st) - start_time num] /\
       reads st' = S (reads st)
  else st' = st.
Proof.
  unfold log_metric. destruct (Nat.eqb (it mod f_grad cfg) 0); cbn;
    repeat split; reflexivity.
Qed.

Lemma mixing_keeps_histories it g st :
  E (mixing num X y cfg it g st) = E st /\
  T (mixing num X y cfg it g st) = T st /\
  reads (mixing num X y cfg it g st) = reads st.
Proof.
  unfold mixing.
  destruct (coefficients num X cfg it (Vec.norm g) st) as [[c' b'] C'].
  repeat split; reflexivity.
Qed.

Lemma iteration_histories it st :
  let g := gradient X y cfg (Xw st) (w st) in
  let st' := iteration num X y cfg it st in
  if Nat.eqb (it mod f_grad cfg) 0
  then E st' = E st ++ [Vec.norm g] /\
       T st' = T st ++ [clock num (S (reads st)) - start_time num] /\
       reads st' = S (S (reads st))
  else E st' = E st /\ T st' = T st /\ reads st' = S (reads st).
Proof.
  intros g st'. unfold st', iteration.
  change (gradient X y cfg (Xw (tick st)) (w (tick st))) with g.
  pose proof (log_metric_histories it g (tick st)) as Hlog.
  set (st1 := fst (log_metric num cfg it g (tick st))) in *.
  set (st2 := step_and_push num X cfg it g st1).
  assert (H2 : E st2 = E st1 /\ T st2 = T st1 /\ reads st2 = reads st1)
    by (repeat split; reflexivity).
  assert (Hfin : E (if use_acc cfg && Nat.eqb (it mod (K cfg + 1)) (K cfg)
                    then mixing num X y cfg it g st2 else st2) = E st1 /\
                 T (if use_acc cfg && Nat.eqb (it mod (K cfg + 1)) (K cfg)
                    then mixing num X y cfg it g st2 else st2) = T st1 /\
                 reads (if use_acc cfg && Nat.eqb (it mod (K cfg + 1)) (K cfg)
                        then mixing num X y cfg it g st2 else st2) = reads st1).
  { destruct (use_acc cfg && _); [| exact H2].
    destruct (mixing_keeps_histories it g st2) as (HE & HT & HR).
    rewrite HE, HT, HR. exact H2. }
  destruct Hfin as (HE & HT & HR). rewrite HE, HT, HR.
  destruct (Nat.eqb (it mod f_grad cfg) 0).
  - exact Hlog.
  - rewrite Hlog. repeat split; reflexivity.
Qed.

(** The four ways a pass can end. *)
Lemma body_outcome it st :
  let g := gradient X y cfg (Xw st) (w st) in
  (max_time cfg < clock num (reads st) - start_time num /\
   body num X y cfg it st = Break (tick st)) \/
  (~ max_time cfg < clock num (reads st) - start_time num /\
   f_grad cfg = 0%nat /\
   body num X y cfg it st = Raise ZeroDivisionError) \/
  (~ max_time cfg < clock num (reads st) - start_time num /\
   f_grad cfg <> 0%nat /\
   Nat.eqb (it mod f_grad cfg) 0 = true /\ Vec.norm g < tol cfg /\
   body num X y cfg it st = Break (fst (log_metric num cfg it g (tick st)))) \/
  (~ max_time cfg < clock num (reads st) - start_time num /\
   f_grad cfg <> 0%nat /\
   (Nat.eqb (it mod f_grad cfg) 0 = true -> ~ Vec.norm g < tol cfg) /\
   body num X y cfg it st = Next (iteration num X y cfg it st)).
Proof.
  intros g. unfold body, iteration.
  change (gradient X y cfg (Xw (tick st)) (w (tick st))) with g.
  destruct (Rlt_dec (max_time cfg) (clock num (reads st) - start_time num))
    as [Hlt | Hge].
  { left. split; auto. }
  right.
  destruct (f_grad cfg) as [| f] eqn:Hf.
  { left. repeat split; auto. }
  right.
  unfold log_metric. rewrite Hf.
  destruct (Nat.eqb (it mod S f) 0) eqn:Hmod; cbn [fst].
  - destruct (Rlt_dec (Vec.norm g) (tol cfg)) as [Hlt | Hnlt].
    + left. repeat split; try assumption; discriminate.
    + right. repeat split; try assumption; try discriminate.
      * intros _. exact Hnlt.
      * destruct (use_acc cfg && _); reflexivity.
  - right. repeat split; try assumption; try discriminate.
    destruct (use_acc cfg && _); reflexivity.
Qed.

(** An invariant of the passes is an invariant of the loop. *)
Lemma loop_indexed (P : nat -> state -> Prop) (Q : state -> Prop) n :
  forall s st,
    P s st ->
    (forall it st0, (s <= it < s + n)%nat -> P it st0 ->
       match body num X y cfg it st0 with
       | Next st' => P (S it) st'
       | Break st' => Q st'
       | Raise _ => True
       end) ->
    match loop num X y cfg (seq s n) st with
    | Next st' => P (s + n)%nat st'
    | Break st' => Q st'
    | Raise _ => True
    end.
Proof.
  induction n as [| n IH]; intros s st HP Hbody; cbn [seq loop].
  - rewrite Nat.add_0_r. exact HP.
  - pose proof (Hbody s st ltac:(lia) HP) as Hs.
    destruct (body num X y cfg s st) as [st' | st' | e]; try exact Hs.
    replace (s + S n)%nat with (S s + n)%nat by lia.
    apply IH; [exact Hs |].
    intros it st0 Hit. apply Hbody. lia.
Qed.

End Outcomes.

(** ** The metric histories *)

Lemma metric_passes_S f n :
  metric_passes f (S n)
  = metric_passes f n ++ (if Nat.eqb (n mod f) 0 then [n] else []).
Proof.
  unfold metric_passes. rewrite seq_S, filter_app. cbn.
  destruct (Nat.eqb (n mod f) 0); reflexivity.
Qed.

Lemma metric_passes_count f n :
  f <> 0%nat -> length (metric_passes f n) = ((n + f - 1) / f)%nat.
Proof.
  intros Hf. induction n as [| n IH].
  - cbn. symmetry. apply Nat.div_small. lia.
  - rewrite metric_passes_S, length_app, IH.
    pose proof (Nat.div_mod_eq n f) as Hn.
    pose proof (Nat.mod_upper_bound n f Hf) as Hr.
    destruct (Nat.eqb_spec (n mod f) 0) as [H0 | Hne]; cbn [length].
    + rewrite H0 in Hn.
      rewrite <- (Nat.div_unique (n + f - 1) f (n / f) (f - 1)) by lia.
      apply (Nat.div_unique (S n + f - 1) f (n / f + 1) 0); lia.
    + rewrite <- (Nat.div_unique (n + f - 1) f (n / f + 1) (n mod f - 1)) by lia.
      rewrite Nat.add_0_r.
      apply (Nat.div_unique (S n + f - 1) f (n / f + 1) (n mod f)); lia.
Qed.

Lemma metric_passes_mono f n m :
  (n <= m)%nat -> (length (metric_passes f n) <= length (metric_passes f m))%nat.
Proof.
  induction 1 as [| m Hle IH]; [lia |].
  rewrite metric_passes_S, length_app. lia.
Qed.

Section Histories.

Variable num : numerics.
Variable X : design.
Variable y : vec.
Variable cfg : config.

Lemma histories_of_loop :
  match loop num X y cfg (seq 0 (max_iter cfg)) (init X y cfg) with
  | Next st =>
      length (E st) = length (T st) /\
      length (E st) = ((max_iter cfg + f_grad cfg - 1) / f_grad cfg)%nat
  | Break st =>
      length (E st) = length (T st) /\
      (length (E st) <= (max_iter cfg + f_grad cfg - 1) / f_grad cfg)%nat
  | Raise _ => True
  end.
Proof.
  set (N := max_iter cfg). set (f := f_grad cfg).
  pose proof (loop_indexed num X y cfg
    (fun it st => length (E st) = length (T st) /\
                  (length (E st) = (it + f - 1) / f)%nat)
    (fun st => length (E st) = length (T st) /\
               (length (E st) <= (N + f - 1) / f)%nat)
    N 0 (init X y cfg)) as H.
  cbn [Nat.add] in H. apply H; clear H.
  - split; [reflexivity |]. cbn.
    destruct (Nat.eq_dec f 0) as [-> | Hf]; [reflexivity |].
    symmetry. apply Nat.div_small. lia.
  - intros it st Hit [HET Hcount].
    destruct (body_outcome num X y cfg it st)
      as [(_ & ->) | [(_ & _ & ->) | [(_ & Hf & Hmod & _ & ->) | (_ & Hf & _ & ->)]]].
    + cbn. split; [exact HET |]. rewrite Hcount.
      apply Nat.Div0.div_le_mono. lia.
    + exact I.
    + pose proof (log_metric_histories num cfg it
                    (gradient X y cfg (Xw st) (w st)) (tick st)) as Hlog.
      rewrite Hmod in Hlog. destruct Hlog as (HE & HT & _).
      rewrite HE, HT, !length_app. cbn [length tick E T].
      split; [lia |].
      fold f in Hf.
      rewrite Hcount, <- !metric_passes_count by exact Hf.
      pose proof (metric_passes_mono f (S it) N ltac:(lia)) as Hm.
      rewrite metric_passes_S in Hm. fold f in Hmod. rewrite Hmod in Hm.
      rewrite length_app in Hm. cbn in Hm. lia.
    + pose proof (iteration_histories num X y cfg it st) as Hlog.
      cbv zeta in Hlog. fold f in Hf, Hlog.
      change (S (it + f) - 1)%nat with (S it + f - 1)%nat.
      rewrite <- !metric_passes_count in * by exact Hf.
      rewrite metric_passes_S, length_app.
      destruct (Nat.eqb (it mod f) 0); destruct Hlog as (HE & HT & _);
        rewrite HE, HT, ?length_app; cbn [length]; lia.
Qed.

End Histories.

(** ** How a call ends *)

Section Ends.

Variable num : numerics.
Variable X : design.
Variable y : vec.
Variable cfg : config.

Local Abbreviation after := (state_after num X y cfg).

(** The only exception of the loop is the division in
    [it % f_grad]. *)
Lemma loop_raises its st e :
  loop num X y cfg its st = Raise e ->
  e = ZeroDivisionError /\ f_grad cfg = 0%nat.
Proof.
  revert st. induction its as [| it its IH]; intros st H; cbn in H;
    [discriminate |].
  destruct (body_cases num X y cfg it st)
    as [Hn | [(s & Hb & _) | (Hf & Hr)]].
  - rewrite Hn in H. exact (IH _ H).
  - rewrite Hb in H. discriminate.
  - rewrite Hr in H. split; congruence.
Qed.

(** The state the loop leaves: after [n] full passes, or at a [break] in
    pass [it] after [it] full passes. *)
Lemma loop_outcome n :
  match loop num X y cfg (seq 0 n) (init X y cfg) with
  | Next st => st = after n
  | Break st =>
      exists it, (it < n)%nat /\
        let g := gradient X y cfg (Xw (after it)) (w (after it)) in
        (st = tick (after it) /\
         max_time cfg < clock num (reads (after it)) - start_time num) \/
        (st = fst (log_metric num cfg it g (tick (after it))) /\
         Nat.eqb (it mod f_grad cfg) 0 = true /\ Vec.norm g < tol cfg)
  | Raise _ => True
  end.
Proof.
  pose proof (loop_indexed num X y cfg
    (fun it st => st = after it)
    (fun st => exists it, (it < n)%nat /\
        let g := gradient X y cfg (Xw (after it)) (w (after it)) in
        (st = tick (after it) /\
         max_time cfg < clock num (reads (after it)) - start_time num) \/
        (st = fst (log_metric num cfg it g (tick (after it))) /\
         Nat.eqb (it mod f_grad cfg) 0 = true /\ Vec.norm g < tol cfg))
    n 0 (init X y cfg)) as H.
  cbn [Nat.add] in H. apply H; clear H; [reflexivity |].
  intros it st Hit ->.
  destruct (body_outcome num X y cfg it (after it))
    as [(Ht & ->) | [(_ & _ & ->) | [(_ & _ & Hmod & Htol & ->) | (_ & _ & _ & ->)]]].
  - exists it. split; [lia |]. left. split; [reflexivity | exact Ht].
  - exact I.
  - exists it. split; [lia |]. right. repeat split; assumption.
  - reflexivity.
Qed.

(** The ways [solver_logreg] ends, in terms of the loop. *)
Lemma solver_logreg_cases :
  (K cfg = 0%nat /\ solver_logreg num X y cfg = inr IndexError) \/
  (K cfg <> 0%nat /\
   exists st,
     (loop num X y cfg (seq 0 (max_iter cfg)) (init X y cfg) = Next st \/
      loop num X y cfg (seq 0 (max_iter cfg)) (init X y cfg) = Break st) /\
     solver_logreg num X y cfg = inl (w st, E st, T st)) \/
  (K cfg <> 0%nat /\ f_grad cfg = 0%nat /\
   loop num X y cfg (seq 0 (max_iter cfg)) (init X y cfg)
   = Raise ZeroDivisionError /\
   solver_logreg num X y cfg = inr ZeroDivisionError).
Proof.
  unfold solver_logreg, run.
  destruct (K cfg) as [| k]; [left; split; reflexivity | right].
  destruct (loop num X y cfg (seq 0 (max_iter cfg)) (init X y cfg))
    as [st | st | e] eqn:Hl.
  - left. split; [discriminate |]. exists st. split; [left |]; reflexivity.
  - left. split; [discriminate |]. exists st. split; [right |]; reflexivity.
  - right. destruct (loop_raises _ _ _ Hl) as [-> Hf].
    repeat split; try assumption; discriminate.
Qed.



(** X5.  The histories returned have the same length, at most
    [ceil(max_iter / f_grad)]; a loop that is not left by a [break]
    records exactly that many metrics. *)
Theorem histories_aligned :
  match solver_logreg num X y cfg with
  | inl (_, E_, T_) =>
      length E_ = length T_ /\
      (length E_ <= (max_iter cfg + f_grad cfg - 1) / f_grad cfg)%nat
  | inr _ => True
  end /\
  match loop num X y cfg (seq 0 (max_iter cfg)) (init X y cfg) with
  | Next st =>
      length (E st) = ((max_iter cfg + f_grad cfg - 1) / f_grad cfg)%nat
  | _ => True
  end.
Proof.
  pose proof (histories_of_loop num X y cfg) as H.
  split.
  - destruct solver_logreg_cases
      as [(_ & ->) | [(_ & st & [Hl | Hl] & ->) | (_ & _ & _ & ->)]];
      try exact I; rewrite Hl in H.
    + destruct H as [H1 H2]. split; [exact H1 | lia].
    + exact H.
  - destruct (loop num X y cfg (seq 0 (max_iter cfg)) (init X y cfg));
      try exact I. apply H.
Qed.

End Ends.

(** ** What the histories hold *)

Section Metrics.

Variable num : numerics.
Variable X : design.
Variable y : vec.
Variable cfg : config.

Hypothesis labels_length : length y = length (rows X).

Local Abbreviation after := (state_after num X y cfg).
Local Abbreviation norm_at :=
  (fun i => grad_norm_at X y cfg (w (state_after num X y cfg i))).

Lemma state_after_cached n : Xw (after n) = Vec.matvec (rows X) (w (after n)).
Proof.
  destruct n as [| n]; [| apply state_after_cache].
  cbn. rewrite matvec_zeros, labels_length. reflexivity.
Qed.

Lemma start_gradient_norm n :
  Vec.norm (gradient X y cfg (Xw (after n)) (w (after n))) = norm_at n.
Proof. unfold grad_norm_at. rewrite <- state_after_cached. reflexivity. Qed.

Lemma state_after_metrics n :
  E (after n) = map norm_at (metric_passes (f_grad cfg) n).
Proof.
  induction n as [| n IH]; [reflexivity |].
  rewrite metric_passes_S, map_app, <- IH.
  pose proof (iteration_histories num X y cfg n (after n)) as H.
  cbv zeta in H. rewrite start_gradient_norm in H.
  cbn [state_after].
  destruct (Nat.eqb (n mod f_grad cfg) 0); destruct H as (HE & _);
    rewrite HE; cbn [map]; [reflexivity | symmetry; apply app_nil_r].
Qed.

(** X6.  With one label per sample, the call returns the iterate that
    [n] full passes leave, for some [n <= max_iter], and [E] lists in
    order the gradient norm at the start of each pass [i < m] with
    [i % f_grad == 0], where [m] is [n], or [n + 1] when pass [n] logged
    its metric and left by the early exit. *)
Theorem history_lists_gradient_norms :
  match solver_logreg num X y cfg with
  | inl (w_, E_, _) =>
      exists n m, (n <= m <= S n)%nat /\ (m <= max_iter cfg)%nat /\
        w_ = w (after n) /\
        E_ = map norm_at (metric_passes (f_grad cfg) m)
  | inr _ => True
  end.
Proof.
  pose proof (loop_outcome num X y cfg (max_iter cfg)) as Ho.
  destruct (solver_logreg_cases num X y cfg)
    as [(_ & ->) | [(_ & st & [Hl | Hl] & ->) | (_ & _ & _ & ->)]];
    try exact I; rewrite Hl in Ho.
  - subst st. exists (max_iter cfg), (max_iter cfg).
    repeat split; try lia. apply state_after_metrics.
  - destruct Ho as (it & Hit & [(-> & _) | (-> & Hmod & _)]).
    + exists it, it. repeat split; try lia. apply state_after_metrics.
    + exists it, (S it).
      pose proof (log_metric_keeps num cfg it
                    (gradient X y cfg (Xw (after it)) (w (after it)))
                    (tick (after it))) as (Hw & _).
      pose proof (log_metric_histories num cfg it
                    (gradient X y cfg (Xw (after it)) (w (after it)))
                    (tick (after it))) as Hlog.
      cbv zeta in Hlog. rewrite Hmod in Hlog. destruct Hlog as (HE & _).
      repeat split; try lia.
      * exact Hw.
      * rewrite HE, metric_passes_S, Hmod, map_app. cbn [tick E map].
        rewrite state_after_metrics, start_gradient_norm. reflexivity.
Qed.

(** X7.  With one label per sample, no entry of the returned [E] is
    below [tol], except possibly the last one; and when the last one is,
    it is the gradient norm at the returned iterate: an early exit
    returns a point whose gradient norm is below [tol], together with
    that norm. *)
Theorem early_exit_certificate :
  match solver_logreg num X y cfg with
  | inl (w_, E_, _) =>
      Forall (fun e => ~ e < tol cfg) E_ \/
      exists E0,
        E_ = E0 ++ [grad_norm_at X y cfg w_] /\
        Forall (fun e => ~ e < tol cfg) E0 /\
        grad_norm_at X y cfg w_ < tol cfg
  | inr _ => True
  end.
Proof.
  pose proof (loop_indexed num X y cfg
    (fun it st => st = after it /\ Forall (fun e => ~ e < tol cfg) (E st))
    (fun st =>
       Forall (fun e => ~ e < tol cfg) (E st) \/
       exists E0,
         E st = E0 ++ [grad_norm_at X y cfg (w st)] /\
         Forall (fun e => ~ e < tol cfg) E0 /\
         grad_norm_at X y cfg (w st) < tol cfg)
    (max_iter cfg) 0 (init X y cfg)) as H.
  cbn [Nat.add] in H.
  assert (Hloop :
    match loop num X y cfg (seq 0 (max_iter cfg)) (init X y cfg) with
    | Next st => Forall (fun e => ~ e < tol cfg) (E st)
    | Break st =>
        Forall (fun e => ~ e < tol cfg) (E st) \/
        exists E0,
          E st = E0 ++ [grad_norm_at X y cfg (w st)] /\
          Forall (fun e => ~ e < tol cfg) E0 /\
          grad_norm_at X y cfg (w st) < tol cfg
    | Raise _ => True
    end).
  { match type of H with
    | ?A -> ?B -> _ => assert (HA : A); [| assert (HB : B)]
    end.
    - split; [reflexivity | constructor].
    - intros it st _ [-> Hall].
      pose proof (iteration_histories num X y cfg it (after it)) as Hh.
      pose proof (log_metric_histories num cfg it
                    (gradient X y cfg (Xw (after it)) (w (after it)))
                    (tick (after it))) as Hlog.
      pose proof (log_metric_keeps num cfg it
                    (gradient X y cfg (Xw (after it)) (w (after it)))
                    (tick (after it))) as (Hw & _).
      cbv zeta in Hh, Hlog. rewrite start_gradient_norm in Hh, Hlog.
      destruct (body_outcome num X y cfg it (after it))
        as [(_ & ->) | [(_ & _ & ->) |
             [(_ & _ & Hmod & Htol & ->) | (_ & _ & Htol & ->)]]].
      + left. exact Hall.
      + exact I.
      + right. exists (E (after it)).
        rewrite Hmod in Hlog. destruct Hlog as (HE & _).
        rewrite start_gradient_norm in Htol.
        rewrite Hw. cbn [tick w E] in *.
        repeat split; assumption.
      + split; [reflexivity |].
        rewrite start_gradient_norm in Htol.
        destruct (Nat.eqb (it mod f_grad cfg) 0); destruct Hh as (HE & _);
          rewrite HE; [| exact Hall].
        apply Forall_app. split; [exact Hall |].
        constructor; [exact (Htol eq_refl) | constructor].
    - specialize (H HA HB).
      destruct (loop num X y cfg (seq 0 (max_iter cfg)) (init X y cfg));
        try exact H. apply H. }
  destruct (solver_logreg_cases num X y cfg)
    as [(_ & ->) | [(_ & st & [Hl | Hl] & ->) | (_ & _ & _ & ->)]];
    try exact I; rewrite Hl in Hloop.
  - left. exact Hloop.
  - exact Hloop.
Qed.

End Metrics.

(** ** The shape of the result *)

Section ResultShape.

Variable num : numerics.
Variable X : design.
Variable y : vec.
Variable cfg : config.

(** X8.  When every sample has [n_features] entries, so has the iterate
    returned, however the loop is left. *)
Theorem returned_iterate_has_n_features :
  Forall (fun r => length r = n_features X) (rows X) ->
  match solver_logreg num X y cfg with
  | inl (w_, _, _) => length w_ = n_features X
  | inr _ => True
  end.
Proof.
  intros Hrows.
  pose proof (loop_outcome num X y cfg (max_iter cfg)) as Ho.
  assert (Hs : forall n, length (w (state_after num X y cfg n)) = n_features X)
    by (intros n; apply state_after_shaped; exact Hrows).
  destruct (solver_logreg_cases num X y cfg)
    as [(_ & ->) | [(_ & st & [Hl | Hl] & ->) | (_ & _ & _ & ->)]];
    try exact I; rewrite Hl in Ho.
  - subst st. apply Hs.
  - destruct Ho as (it & _ & [(-> & _) | (-> & _)]).
    + apply Hs.
    + pose proof (log_metric_keeps num cfg it
                    (gradient X y cfg (Xw (state_after num X y cfg it))
                       (w (state_after num X y cfg it)))
                    (tick (state_after num X y cfg it))) as (Hw & _).
      rewrite Hw. apply Hs.
Qed.

End ResultShape.

(** ** The times *)

Lemma nondecreasing_snoc l x :
  nondecreasing l -> Forall (fun t => t <= x) l -> nondecreasing (l ++ [x]).
Proof.
  intros Hl Hx i j [Hij Hj]. rewrite length_app in Hj. cbn in Hj.
  destruct (Nat.eq_dec j (length l)) as [-> | Hne].
  - rewrite (app_nth2 l [x] 0 (Nat.le_refl _)), Nat.sub_diag. cbn.
    destruct (Nat.eq_dec i (length l)) as [-> | Hi].
    + rewrite app_nth2, Nat.sub_diag by lia. cbn. lra.
    + rewrite app_nth1 by lia.
      rewrite Forall_forall in Hx. apply Hx, nth_In. lia.
  - rewrite !app_nth1 by lia. apply Hl. lia.
Qed.

Section Times.

Variable num : numerics.
Variable X : design.
Variable y : vec.
Variable cfg : config.

Local Abbreviation elapsed := (fun k => clock num k - start_time num).

(** X9.  When the clock never goes back, the returned times are
    nonnegative and nondecreasing, and every one but the last is at most
    [max_time]: a time is recorded only after the time check of its pass,
    and followed by another only if the time check of a later pass
    succeeded. *)
Theorem times_in_order :
  clock_monotone num ->
  match solver_logreg num X y cfg with
  | inl (_, _, T_) =>
      nondecreasing T_ /\
      Forall (fun t => 0 <= t) T_ /\
      Forall (fun t => t <= max_time cfg) (removelast T_)
  | inr _ => True
  end.
Proof.
  intros Hmono.
  assert (Hstep : forall k, elapsed k <= elapsed (S k))
    by (intros k; pose proof (Hmono k (S k) ltac:(lia)); lra).
  assert (Hpos : forall k, 0 <= elapsed k)
    by (intros k; pose proof (Hmono 0%nat k ltac:(lia));
        unfold start_time; lra).
  pose proof (loop_indexed num X y cfg
    (fun _ st =>
       nondecreasing (T st) /\
       Forall (fun t => 0 <= t <= elapsed (reads st)) (T st) /\
       Forall (fun t => t <= max_time cfg) (removelast (T st)))
    (fun st =>
       nondecreasing (T st) /\
       Forall (fun t => 0 <= t) (T st) /\
       Forall (fun t => t <= max_time cfg) (removelast (T st)))
    (max_iter cfg) 0 (init X y cfg)) as H.
  cbn [Nat.add] in H.
  match type of H with
  | ?A -> ?B -> _ => assert (HA : A); [| assert (HB : B)]
  end.
  - split; [| split; constructor]. intros i j [_ Hj]. cbn in Hj. lia.
  - intros it st _ (Hnd & Hbound & Hmax).
    assert (Hnext : Forall (fun t => t <= elapsed (S (reads st))) (T st)).
    { eapply Forall_impl; [| exact Hbound]. cbv beta.
      intros t [_ Ht]. pose proof (Hstep (reads st)). lra. }
    assert (Hnonneg : Forall (fun t => 0 <= t) (T st)).
    { eapply Forall_impl; [| exact Hbound]. cbv beta. intros t [Ht _].
      exact Ht. }
    pose proof (iteration_histories num X y cfg it st) as Hh.
    pose proof (log_metric_histories num cfg it
                  (gradient X y cfg (Xw st) (w st)) (tick st)) as Hlog.
    cbv zeta in Hh, Hlog.
    destruct (body_outcome num X y cfg it st)
      as [(_ & ->) | [(_ & _ & ->) |
           [(Hin & _ & Hmod & _ & ->) | (Hin & _ & _ & ->)]]].
    + cbn [tick T]. repeat split; assumption.
    + exact I.
    + rewrite Hmod in Hlog. destruct Hlog as (_ & HT & _). rewrite HT.
      cbn [tick T reads]. rewrite removelast_last.
      repeat split.
      * apply nondecreasing_snoc; assumption.
      * apply Forall_app. split; [exact Hnonneg |].
        constructor; [apply Hpos | constructor].
      * eapply Forall_impl; [| exact Hbound]. cbv beta.
        intros t [_ Ht]. lra.
    + destruct (Nat.eqb (it mod f_grad cfg) 0);
        destruct Hh as (_ & HT & HR); rewrite HT, HR.
      * rewrite removelast_last. repeat split.
        -- apply nondecreasing_snoc; assumption.
        -- apply Forall_app. split.
           ++ eapply Forall_impl; [| exact Hbound]. cbv beta.
              intros t [Ht0 Ht].
              pose proof (Hstep (reads st)).
              pose proof (Hstep (S (reads st))). lra.
           ++ constructor; [| constructor].
              split; [apply Hpos | apply Hstep].
        -- eapply Forall_impl; [| exact Hbound]. cbv beta.
           intros t [_ Ht]. lra.
      * repeat split; try assumption.
        eapply Forall_impl; [| exact Hbound]. cbv beta.
        intros t [Ht0 Ht]. pose proof (Hstep (reads st)). lra.
  - specialize (H HA HB).
    destruct (solver_logreg_cases num X y cfg)
      as [(_ & ->) | [(_ & st & [Hl | Hl] & ->) | (_ & _ & _ & ->)]];
      try exact I; rewrite Hl in H.
    + destruct H as (Hnd & Hbound & Hmax). repeat split; try assumption.
      eapply Forall_impl; [| exact Hbound]. cbv beta. intros t [Ht _].
      exact Ht.
    + exact H.
Qed.

End Times.

(** ** Without acceleration *)

Section Unaccelerated.

Variable num num' : numerics.
Variable X : design.
Variable y : vec.
Variable cfg cfg' : config.

Hypothesis off : use_acc cfg = false.
Hypothesis off' : use_acc cfg' = false.
Hypothesis same_rho : rho cfg' = rho cfg.
Hypothesis same_max_time : max_time cfg' = max_time cfg.
Hypothesis same_tol : tol cfg' = tol cfg.
Hypothesis same_f_grad : f_grad cfg' = f_grad cfg.
Hypothesis same_norm : norm_ord2 num' = norm_ord2 num.
Hypothesis same_svds : svds_top num' = svds_top num.
Hypothesis same_clock : clock num' = clock num.

(** The part of the state the plain loop reads and writes. *)
Local Abbreviation alike :=
  (fun st st' : state =>
     w st' = w st /\ Xw st' = Xw st /\ E st' = E st /\ T st' = T st /\
     reads st' = reads st).

Lemma body_unaccelerated it st st' :
  alike st st' ->
  match body num X y cfg it st, body num' X y cfg' it st' with
  | Next a, Next a' => alike a a'
  | Break a, Break a' => alike a a'
  | Raise e, Raise e' => e = e'
  | _, _ => False
  end.
Proof.
  intros (Hw & HXw & HE & HT & HR).
  unfold body, log_metric, step_and_push, tick, descent, Lipschitz, gradient,
    start_time.
  cbn [w Xw E T reads].
  rewrite off, off', same_rho, same_max_time, same_tol, same_f_grad,
    same_norm, same_svds, same_clock, Hw, HXw, HE, HT, HR.
  cbn [andb].
  destruct (Rlt_dec _ _); [cbn; repeat split; reflexivity |].
  destruct (f_grad cfg); [reflexivity |].
  destruct (Nat.eqb _ 0); [| cbn; repeat split; reflexivity].
  destruct (Rlt_dec _ _); cbn; repeat split; reflexivity.
Qed.

Lemma loop_unaccelerated its :
  forall st st',
    alike st st' ->
    match loop num X y cfg its st, loop num' X y cfg' its st' with
    | Next a, Next a' => alike a a'
    | Break a, Break a' => alike a a'
    | Raise e, Raise e' => e = e'
    | _, _ => False
    end.
Proof.
  induction its as [| it its IH]; intros st st' Hst; cbn [loop];
    [exact Hst |].
  pose proof (body_unaccelerated it st st' Hst) as Hb.
  destruct (body num X y cfg it st) as [a | a | e],
           (body num' X y cfg' it st') as [a' | a' | e'];
    try contradiction; try exact Hb.
  apply IH. exact Hb.
Qed.

End Unaccelerated.

(** X10.  With [use_acc] off, the result does not depend on [K] (as long
    as it is not zero), [C0], [adaptive_C], [reg_amount] or [verbose],
    nor on the linear and the constrained solver: two calls that agree
    on the other arguments, on the norm and on the clock return the
    same. *)
Theorem unaccelerated_run_ignores_the_mixing_arguments
  (num num' : numerics) (X : design) (y : vec) (cfg cfg' : config) :
  use_acc cfg = false -> use_acc cfg' = false ->
  K cfg <> 0%nat -> K cfg' <> 0%nat ->
  rho cfg' = rho cfg -> max_iter cfg' = max_iter cfg ->
  max_time cfg' = max_time cfg -> tol cfg' = tol cfg ->
  f_grad cfg' = f_grad cfg ->
  norm_ord2 num' = norm_ord2 num -> svds_top num' = svds_top num ->
  clock num' = clock num ->
  solver_logreg num' X y cfg' = solver_logreg num X y cfg.
Proof.
  intros off off' HK HK' Hrho Hiter Htime Htol Hf Hnorm Hsvds Hclock.
  unfold solver_logreg, run.
  destruct (K cfg) as [| k]; [congruence |].
  destruct (K cfg') as [| k']; [congruence |].
  rewrite Hiter.
  pose proof (loop_unaccelerated num num' X y cfg cfg' off off' Hrho Htime
                Htol Hf Hnorm Hsvds Hclock (seq 0 (max_iter cfg))
                (init X y cfg) (init X y cfg')) as H.
  destruct (loop num X y cfg (seq 0 (max_iter cfg)) (init X y cfg))
    as [a | a | e],
    (loop num' X y cfg' (seq 0 (max_iter cfg)) (init X y cfg'))
    as [a' | a' | e'];
    try (exfalso; apply H; repeat split; reflexivity);
    try (destruct H as (Hw & _ & HE & HT & _);
         [repeat split; reflexivity | rewrite Hw, HE, HT; reflexivity]).
  f_equal. symmetry. apply H. repeat split; reflexivity.
Qed.

(** ** The passes before the first mixing event *)

Section PlainPasses.

Variable num : numerics.
Variable X : design.
Variable y : vec.
Variable cfg : config.

Hypothesis labels_length : length y = length (rows X).

Local Abbreviation gd :=
  (fun w_ => descent num X cfg w_
               (gradient X y cfg (Vec.matvec (rows X) w_) w_)).

(** X11.  With one label per sample, the iterate after [n] full passes
    is [n] gradient steps [w - 1/L * grad(w)] from the origin, when
    [use_acc] is off, and also when it is on and [n <= K]: no mixing
    event has taken place yet. *)
Theorem plain_passes_are_gradient_descent n :
  use_acc cfg = false \/ (n <= K cfg)%nat ->
  w (state_after num X y cfg n)
  = Nat.iter n gd (Vec.zeros (n_features X)).
Proof.
  intros Hn. induction n as [| n IH]; [reflexivity |].
  rewrite Nat.iter_succ, <- IH
    by (destruct Hn; [left; assumption | right; lia]).
  cbn [state_after].
  destruct (iteration_plain num X y cfg n (state_after num X y cfg n))
    as (Hw & _ & _ & _ & _ & _ & Hit).
  assert (Hplain : use_acc cfg && Nat.eqb (n mod (K cfg + 1)) (K cfg) = false).
  { destruct Hn as [-> | Hle]; [reflexivity |].
    apply andb_false_iff. right. apply Nat.eqb_neq.
    rewrite Nat.mod_small by lia. lia. }
  rewrite Hit, Hplain, Hw. unfold plain_iterate.
  rewrite (state_after_cached num X y cfg labels_length). reflexivity.
Qed.

End PlainPasses.

(** ** The radius over a run *)

Section RadiusRun.

Variable num : numerics.
Variable X : design.
Variable y : vec.
Variable cfg : config.

Lemma radius_candidate_floor c0 norm_grad it :
  c0 <= radius_candidate num X cfg c0 norm_grad it /\
  (adaptive_C cfg = false -> radius_candidate num X cfg c0 norm_grad it = c0).
Proof.
  unfold radius_candidate. destruct (adaptive_C cfg).
  - split; [apply Rmax_r | discriminate].
  - split; [lra | reflexivity].
Qed.

(** X12.  Over a run in which no mixing pass of an adaptive schedule
    starts from a vanishing gradient (and [L] is positive), the stored
    radius [C_prev] is never below [C0], and equals [C0] throughout
    without [adaptive_C].  When no [C0] is given, [C_prev] stays [None]
    and the boundary flag stays [True]. *)
Theorem stored_radius_never_below_C0 n :
  (forall it, (it < n)%nat -> adaptive_C cfg = true ->
     (it mod (K cfg + 1) = K cfg)%nat ->
     0 < Vec.norm (gradient X y cfg (Xw (state_after num X y cfg it))
                     (w (state_after num X y cfg it)))
         / Lipschitz num X cfg) ->
  match C0 cfg with
  | Some c0 =>
      exists r, C_prev (state_after num X y cfg n) = Some r /\ c0 <= r /\
                (adaptive_C cfg = false -> r = c0)
  | None =>
      C_prev (state_after num X y cfg n) = None /\
      border (state_after num X y cfg n) = true
  end.
Proof.
  intros _. induction n as [| n IH].
  - cbn. destruct (C0 cfg) as [c0 |]; [| split; reflexivity].
    exists c0. split; [reflexivity | split; [lra | reflexivity]].
  - cbn [state_after].
    destruct (iteration_plain num X y cfg n (state_after num X y cfg n))
      as (_ & _ & _ & Hb & HC & _ & Hit).
    set (st := state_after num X y cfg n) in *.
    set (g := gradient X y cfg (Xw st) (w st)) in *.
    set (st2 := step_and_push num X cfg n g _) in *.
    rewrite Hit.
    destruct (use_acc cfg && Nat.eqb (n mod (K cfg + 1)) (K cfg)).
    + pose proof (mixing_coefficients num X y cfg n g st2) as Hm.
      unfold coefficients in Hm.
      destruct (C0 cfg) as [c0 |].
      * destruct IH as (r & Hr & Hle & Hfix).
        destruct (radius_candidate_floor c0 (Vec.norm g) n) as [Hc Hcfix].
        unfold radius_continuation in Hm. rewrite Hb, HC, Hr in Hm.
        destruct (border st);
          [exists (radius_candidate num X cfg c0 (Vec.norm g) n) | exists r];
          (split; [| split; assumption]);
          destruct (FW num _ _ _ _ _) as [[[c1 gap] b1] |]; congruence.
      * destruct IH as [HN HB]. rewrite <- HC, <- Hb in *.
        destruct (linalg_solve num _ _); split; congruence.
    + rewrite HC, Hb. exact IH.
Qed.

End RadiusRun.

(** ** A stationary point *)

Lemma norm_zeros n : Vec.norm (Vec.zeros n) = 0.
Proof.
  unfold Vec.norm. rewrite dot_zeros_r. apply sqrt_0.
Qed.

Lemma norm_nonneg v : 0 <= Vec.norm v.
Proof. apply sqrt_pos. Qed.

Lemma sub_scaled_zeros a v n :
  length v = n -> Vec.sub v (Vec.scale a (Vec.zeros n)) = v.
Proof.
  intros <-. unfold Vec.sub, Vec.scale, Vec.zeros.
  induction v as [| b v IH]; cbn; [reflexivity |].
  rewrite IH. f_equal. ring.
Qed.

Section Stationary.

Variable num : numerics.
Variable X : design.
Variable y : vec.
Variable cfg : config.

Hypothesis rows_shape :
  Forall (fun r => length r = n_features X) (rows X).
Hypothesis labels_length : length y = length (rows X).

Lemma stationary_step it st :
  length (w st) = n_features X ->
  Xw st = Vec.matvec (rows X) (w st) ->
  gradient X y cfg (Xw st) (w st) = Vec.zeros (n_features X) ->
  w (iteration num X y cfg it st) = w st.
Proof.
  intros Hlen Hcache Hzero.
  destruct (iteration_plain num X y cfg it st)
    as (Hw & HXw & _ & _ & _ & _ & Hit).
  cbv zeta in Hw, HXw, Hit.
  assert (Hplain : plain_iterate num X y cfg st = w st).
  { unfold plain_iterate, descent. rewrite Hzero.
    apply sub_scaled_zeros. exact Hlen. }
  rewrite Hzero in *.
  set (st2 := step_and_push num X cfg it _ _) in *.
  rewrite Hit. destruct (use_acc cfg && _); [| congruence].
  destruct (mixing_safeguard num X y cfg it (Vec.zeros (n_features X)) st2)
    as [_ Hrej].
  rewrite norm_zeros in Hrej.
  destruct Hrej as [Hrej _]; [| congruence].
  intros Hlt. pose proof (norm_nonneg
    (gradient X y cfg
       (Vec.matvec (rows X)
          (extrapolate X (last_K_w st2)
             (c (mixing num X y cfg it (Vec.zeros (n_features X)) st2))))
       (extrapolate X (last_K_w st2)
          (c (mixing num X y cfg it (Vec.zeros (n_features X)) st2))))).
  lra.
Qed.

(** X13.  Once the gradient vanishes at the working iterate, the
    iterate no longer moves: the descent step has nothing to subtract
    (the step [1/L] being finite), and at a mixing pass no candidate can
    have a gradient norm strictly below zero. *)
Theorem stationary_point_is_kept n m :
  Lipschitz num X cfg <> 0 ->
  gradient X y cfg (Vec.matvec (rows X) (w (state_after num X y cfg n)))
    (w (state_after num X y cfg n))
  = Vec.zeros (n_features X) ->
  (n <= m)%nat ->
  w (state_after num X y cfg m) = w (state_after num X y cfg n).
Proof.
  intros _ Hzero Hle. induction Hle as [| m Hle IH]; [reflexivity |].
  cbn [state_after]. rewrite <- IH.
  apply stationary_step.
  - apply state_after_shaped. exact rows_shape.
  - apply state_after_cached. exact labels_length.
  - rewrite (state_after_cached num X y cfg labels_length), IH. exact Hzero.
Qed.

End Stationary.

(** ** Mixing a single iterate *)

Section OrderOne.

Variable num : numerics.
Variable X : design.
Variable y : vec.
Variable cfg : config.

Hypothesis accelerated : use_acc cfg = true.
Hypothesis order_one : K cfg = 1%nat.
Hypothesis rows_shape :
  Forall (fun r => length r = n_features X) (rows X).

Lemma unit_vector_of_sum (v : vec) :
  length v = 1%nat -> Vec.sum v = 1 -> v = [1].
Proof.
  clear. destruct v as [| a [| b v]]; cbn; intros Hl Hs; try discriminate.
  f_equal. lra.
Qed.

Lemma normalize_single (z : vec) :
  length z = 1%nat -> Vec.sum z <> 0 -> normalize z = [1].
Proof.
  clear. destruct z as [| a [| b z]]; cbn; intros Hl Hs; try discriminate.
  f_equal. field. lra.
Qed.

(** X14.  With [K = 1] the acceleration is inert.  At a mixing pass a
    coefficient vector of one entry that sums to one makes the candidate
    the iterate the pass started from; the strict test of the safeguard
    rejects it and the pass ends on the plain iterate.  Without [C0],
    every solve that returns a vector of nonzero sum leaves such
    coefficients. *)
Theorem mixing_a_single_iterate_changes_nothing it :
  (it mod (K cfg + 1) = K cfg)%nat ->
  let st := state_after num X y cfg it in
  let st' := state_after num X y cfg (S it) in
  let plain := plain_iterate num X y cfg st in
  (length (c st') = 1%nat -> Vec.sum (c st') = 1 ->
   extrapolate X (last_K_w st') (c st') = w st /\
   w st' = plain /\ Xw st' = Vec.matvec (rows X) plain) /\
  (C0 cfg = None ->
   forall z,
     linalg_solve num (gram_matrix num cfg (last_K_w st')) (Vec.ones (K cfg))
     = Some z ->
     length z = 1%nat -> Vec.sum z <> 0 -> c st' = [1]).
Proof.
  intros Hit st st' plain.
  assert (HK : K cfg <> 0%nat) by lia.
  split.
  - intros Hlen Hsum.
    apply unit_vector_of_sum in Hsum; [| exact Hlen].
    assert (Hcand : extrapolate X (last_K_w st') (c st') = w st).
    { rewrite Hsum.
      pose proof (start_vector_selects_previous num X y cfg accelerated HK
                    rows_shape it Hit) as Hs.
      rewrite order_one in Hs. exact Hs. }
    split; [exact Hcand |].
    assert (Hcache : Xw st = Vec.matvec (rows X) (w st)).
    { unfold st. destruct it as [| i]; [| apply state_after_cache].
      rewrite order_one in Hit. cbn in Hit. discriminate. }
    destruct (safeguard_step num X y cfg it st accelerated Hit Hcache)
      as [_ Hno].
    change (iteration num X y cfg it st) with st' in Hno.
    rewrite Hcand in Hno. apply Hno. apply Rlt_irrefl.
  - intros HC0 z Hz Hlen Hsum.
    destruct (mixing_pass_state num X y cfg accelerated it Hit)
      as (Hm & Hbuf & _).
    pose proof (mixing_coefficients num X y cfg it
                  (gradient X y cfg (Xw st) (w st))
                  (step_and_push num X cfg it (gradient X y cfg (Xw st) (w st))
                     (fst (log_metric num cfg it
                             (gradient X y cfg (Xw st) (w st)) (tick st)))))
      as Hc.
    fold st in Hm. rewrite <- Hm in Hc. fold st' in Hc.
    unfold coefficients in Hc. rewrite HC0 in Hc.
    fold st in Hbuf. rewrite Hbuf in Hc. fold st' in Hc.
    rewrite Hz in Hc.
    rewrite <- (normalize_single z Hlen Hsum). congruence.
Qed.

End OrderOne.

(** ** A run with no tolerance *)


(** ** The first metric *)

Lemma mul_zeros_r v : Vec.mul v (Vec.zeros (length v)) = Vec.zeros (length v).
Proof.
  unfold Vec.mul, Vec.zeros. induction v as [| a v IH]; cbn; [reflexivity |].
  rewrite IH. f_equal. ring.
Qed.

Lemma div_by_two v :
  Vec.div v (map (fun t => 1 + exp t) (Vec.zeros (length v)))
  = map (fun a => a / 2) v.
Proof.
  unfold Vec.div, Vec.zeros. induction v as [| a v IH]; cbn; [reflexivity |].
  rewrite IH, exp_0. reflexivity.
Qed.

Lemma add_zeros_r v n : length v = n -> Vec.add v (Vec.zeros n) = v.
Proof.
  intros <-. unfold Vec.add, Vec.zeros.
  induction v as [| a v IH]; cbn; [reflexivity |].
  rewrite IH. f_equal. ring.
Qed.

Lemma scale_zeros a n : Vec.scale a (Vec.zeros n) = Vec.zeros n.
Proof.
  unfold Vec.scale, Vec.zeros. induction n as [| n IH]; cbn; [reflexivity |].
  rewrite IH. f_equal. ring.
Qed.

Lemma norm_opp v : Vec.norm (Vec.opp v) = Vec.norm v.
Proof.
  unfold Vec.norm. f_equal. unfold Vec.dot, Vec.mul, Vec.opp, Vec.sum.
  induction v as [| a v IH]; cbn; [reflexivity |].
  rewrite IH. ring.
Qed.

Section FirstMetric.

Variable num : numerics.
Variable X : design.
Variable y : vec.
Variable cfg : config.

Hypothesis rows_shape :
  Forall (fun r => length r = n_features X) (rows X).

Lemma gradient_at_origin :
  gradient X y cfg (Vec.zeros (length y)) (Vec.zeros (n_features X))
  = Vec.opp (Vec.lincomb (n_features X) (rows X) (map (fun a => a / 2) y)).
Proof.
  unfold gradient. rewrite mul_zeros_r, div_by_two, scale_zeros.
  apply add_zeros_r. unfold Vec.opp. rewrite length_map.
  apply lincomb_length. exact rows_shape.
Qed.

Lemma first_metric_kept its :
  forall st e tl,
    E st = e :: tl ->
    match loop num X y cfg its st with
    | Next st' | Break st' => exists tl', E st' = e :: tl'
    | Raise _ => True
    end.
Proof.
  clear rows_shape.
  induction its as [| it its IH]; intros st e tl HE; cbn [loop].
  - exists tl. exact HE.
  - pose proof (iteration_histories num X y cfg it st) as Hh.
    pose proof (log_metric_histories num cfg it
                  (gradient X y cfg (Xw st) (w st)) (tick st)) as Hlog.
    cbv zeta in Hh, Hlog.
    destruct (body_outcome num X y cfg it st)
      as [(_ & ->) | [(_ & _ & ->) |
           [(_ & _ & Hmod & _ & ->) | (_ & _ & _ & ->)]]].
    + exists tl. exact HE.
    + exact I.
    + rewrite Hmod in Hlog. destruct Hlog as (HE' & _).
      rewrite HE'. cbn [tick E]. rewrite HE. eexists. reflexivity.
    + destruct (Nat.eqb (it mod f_grad cfg) 0); destruct Hh as (HE' & _).
      * apply (IH _ e (tl ++ [Vec.norm (gradient X y cfg (Xw st) (w st))])).
        rewrite HE', HE. reflexivity.
      * apply (IH _ e tl). rewrite HE'. exact HE.
Qed.

(** X16.  When every sample has [n_features] entries, the first metric
    recorded, if there is one, is the norm of [X.T @ (y / 2)]: the
    gradient at the origin, which [rho] does not enter. *)
Theorem first_metric_is_half_the_correlation :
  match solver_logreg num X y cfg with
  | inl (_, e :: _, _) =>
      e = Vec.norm (Vec.lincomb (n_features X) (rows X)
                      (map (fun a => a / 2) y))
  | _ => True
  end.
Proof.
  assert (Hloop :
    match loop num X y cfg (seq 0 (max_iter cfg)) (init X y cfg) with
    | Next st | Break st =>
        E st = [] \/
        exists tl, E st = Vec.norm (Vec.lincomb (n_features X) (rows X)
                                      (map (fun a => a / 2) y)) :: tl
    | Raise _ => True
    end).
  { destruct (max_iter cfg) as [| n]; [left; reflexivity |].
    cbn [seq loop].
    pose proof (iteration_histories num X y cfg 0 (init X y cfg)) as Hh.
    pose proof (log_metric_histories num cfg 0
                  (gradient X y cfg (Xw (init X y cfg)) (w (init X y cfg)))
                  (tick (init X y cfg))) as Hlog.
    cbv zeta in Hh, Hlog.
    change (gradient X y cfg (Xw (init X y cfg)) (w (init X y cfg)))
      with (gradient X y cfg (Vec.zeros (length y))
              (Vec.zeros (n_features X))) in *.
    rewrite gradient_at_origin, norm_opp in *.
    destruct (body_outcome num X y cfg 0 (init X y cfg))
      as [(_ & ->) | [(_ & _ & ->) |
           [(_ & _ & Hmod & _ & ->) | (_ & Hf & _ & ->)]]].
    - left. reflexivity.
    - exact I.
    - rewrite Hmod in Hlog. destruct Hlog as (HE & _).
      right. exists [].
      change (gradient X y cfg (Xw (init X y cfg)) (w (init X y cfg)))
        with (gradient X y cfg (Vec.zeros (length y))
                (Vec.zeros (n_features X))).
      rewrite gradient_at_origin. exact HE.
    - rewrite Nat.Div0.mod_0_l, Nat.eqb_refl in Hh.
      destruct Hh as (HE & _).
      pose proof (first_metric_kept (seq 1 n)
                    (iteration num X y cfg 0 (init X y cfg)) _ _ HE) as Hk.
      destruct (loop num X y cfg (seq 1 n) _); try exact I; right; exact Hk. }
  destruct (solver_logreg_cases num X y cfg)
    as [(_ & ->) | [(_ & st & [Hl | Hl] & ->) | (_ & _ & _ & ->)]];
    try exact I; rewrite Hl in Hloop;
    (destruct Hloop as [-> | (tl & ->)]; [exact I | reflexivity]).
Qed.

End FirstMetric.

(** ** The properties on the small instances *)

Lemma plain_config_returns fw X y k n :
  k <> 0%nat ->
  exists r, solver_logreg (small_numerics fw) X y (plain_config k n) = inl r.
Proof.
  intros Hk. unfold solver_logreg. rewrite plain_config_runs by exact Hk.
  eexists. reflexivity.
Qed.

Lemma one_sample_shape x :
  Forall (fun r => length r = n_features (one_sample x)) (rows (one_sample x)).
Proof. repeat constructor. Qed.

Lemma still_clock_monotone fw : clock_monotone (small_numerics fw).
Proof. intros i j _. cbn. lra. Qed.



Lemma history_lists_gradient_norms_witness :
  let num := small_numerics FW_raises in
  let X := one_sample 2 in
  let cfg := plain_config 1 2 in
  (exists r, solver_logreg num X [1] cfg = inl r) /\
  match solver_logreg num X [1] cfg with
  | inl (w_, E_, _) =>
      exists n m, (n <= m <= S n)%nat /\ (m <= max_iter cfg)%nat /\
        w_ = w (state_after num X [1] cfg n) /\
        E_ = map (fun i => grad_norm_at X [1] cfg
                             (w (state_after num X [1] cfg i)))
               (metric_passes (f_grad cfg) m)
  | inr _ => True
  end.
Proof.
  split.
  - apply plain_config_returns. discriminate.
  - exact (history_lists_gradient_norms (small_numerics FW_raises)
             (one_sample 2) [1] (plain_config 1 2) eq_refl).
Defined.

Lemma early_exit_certificate_witness :
  let num := small_numerics FW_raises in
  let X := one_sample 2 in
  let cfg := plain_config 1 2 in
  (exists r, solver_logreg num X [1] cfg = inl r) /\
  match solver_logreg num X [1] cfg with
  | inl (w_, E_, _) =>
      Forall (fun e => ~ e < tol cfg) E_ \/
      exists E0,
        E_ = E0 ++ [grad_norm_at X [1] cfg w_] /\
        Forall (fun e => ~ e < tol cfg) E0 /\
        grad_norm_at X [1] cfg w_ < tol cfg
  | inr _ => True
  end.
Proof.
  split.
  - apply plain_config_returns. discriminate.
  - exact (early_exit_certificate (small_numerics FW_raises)
             (one_sample 2) [1] (plain_config 1 2) eq_refl).
Defined.

Lemma returned_iterate_has_n_features_witness :
  let num := small_numerics FW_raises in
  let X := one_sample 2 in
  let cfg := plain_config 1 2 in
  (exists r, solver_logreg num X [1] cfg = inl r) /\
  match solver_logreg num X [1] cfg with
  | inl (w_, _, _) => length w_ = n_features X
  | inr _ => True
  end.
Proof.
  split.
  - apply plain_config_returns. discriminate.
  - exact (returned_iterate_has_n_features (small_numerics FW_raises)
             (one_sample 2) [1] (plain_config 1 2) (one_sample_shape 2)).
Defined.

Lemma times_in_order_witness :
  let num := small_numerics FW_raises in
  let X := one_sample 2 in
  let cfg := plain_config 1 2 in
  (exists r, solver_logreg num X [1] cfg = inl r) /\
  match solver_logreg num X [1] cfg with
  | inl (_, _, T_) =>
      nondecreasing T_ /\
      Forall (fun t => 0 <= t) T_ /\
      Forall (fun t => t <= max_time cfg) (removelast T_)
  | inr _ => True
  end.
Proof.
  split.
  - apply plain_config_returns. discriminate.
  - exact (times_in_order (small_numerics FW_raises) (one_sample 2) [1]
             (plain_config 1 2) (still_clock_monotone FW_raises)).
Defined.

Lemma unaccelerated_run_ignores_the_mixing_arguments_witness :
  solver_logreg (small_numerics FW_stays) (one_sample 2) [1]
    {| rho := 0; max_iter := 3; max_time := 100; tol := 0; f_grad := 1;
       K := 2; use_acc := false; C0 := Some 1; adaptive_C := true;
       reg_amount := Some 1; verbose := false |}
  = solver_logreg (small_numerics FW_raises) (one_sample 2) [1]
      (descent_config 3).
Proof.
  apply unaccelerated_run_ignores_the_mixing_arguments;
    try reflexivity; discriminate.
Defined.

Lemma plain_passes_are_gradient_descent_witness :
  let num := small_numerics FW_raises in
  let X := one_sample 2 in
  let cfg := plain_config 2 2 in
  w (state_after num X [1] cfg 2)
  = Nat.iter 2
      (fun w_ => descent num X cfg w_
                   (gradient X [1] cfg (Vec.matvec (rows X) w_) w_))
      (Vec.zeros (n_features X)).
Proof.
  apply (plain_passes_are_gradient_descent (small_numerics FW_raises)
           (one_sample 2) [1] (plain_config 2 2) eq_refl 2).
  right. apply Nat.le_refl.
Defined.

(** The adaptive schedule on the sample [2] with [K = 1]: the one
    mixing pass among the first two starts from a gradient of norm
    [slope 2]. *)
Lemma adaptive_run_base it :
  (it < 2)%nat ->
  adaptive_C (constrained_config 1 2 1 true) = true ->
  (it mod (K (constrained_config 1 2 1 true) + 1)
   = K (constrained_config 1 2 1 true))%nat ->
  0 < Vec.norm
        (gradient (one_sample 2) [1] (constrained_config 1 2 1 true)
           (Xw (state_after (small_numerics FW_stays) (one_sample 2) [1]
                  (constrained_config 1 2 1 true) it))
           (w (state_after (small_numerics FW_stays) (one_sample 2) [1]
                 (constrained_config 1 2 1 true) it)))
      / Lipschitz (small_numerics FW_stays) (one_sample 2)
          (constrained_config 1 2 1 true).
Proof.
  intros Hit _ Hmod.
  destruct it as [| [| it]]; [discriminate Hmod | | lia].
  destruct (first_pass_sample_2 FW_stays (constrained_config 1 2 1 true)
              eq_refl ltac:(discriminate)) as (_ & Hw & HXw).
  rewrite Hw, HXw, gradient_sample_2, norm_1d, Lipschitz_sample_2
    by reflexivity.
  rewrite Rabs_Ropp, Rabs_pos_eq by (left; apply slope_pos).
  pose proof (slope_pos 2). lra.
Qed.

Lemma stored_radius_never_below_C0_witness :
  let num := small_numerics FW_stays in
  let cfg := constrained_config 1 2 1 true in
  exists r,
    C_prev (state_after num (one_sample 2) [1] cfg 2) = Some r /\ 1 <= r /\
    (adaptive_C cfg = false -> r = 1).
Proof.
  exact (stored_radius_never_below_C0 (small_numerics FW_stays)
           (one_sample 2) [1] (constrained_config 1 2 1 true) 2
           adaptive_run_base).
Defined.

Lemma first_event_solution :
  exists z,
    linalg_solve (small_numerics FW_raises)
      (gram_matrix (small_numerics FW_raises) (plain_config 1 2)
         (last_K_w (state_after (small_numerics FW_raises) (one_sample 2) [1]
                      (plain_config 1 2) 2)))
      (Vec.ones (K (plain_config 1 2))) = Some z /\
    length z = 1%nat /\ Vec.sum z <> 0.
Proof.
  pose proof (first_event_solve_complete first_event_nonsingular) as Hc.
  destruct (linalg_solve _ _ _) as [z |] eqn:Hz; [| congruence].
  exists z. split; [reflexivity |].
  destruct (first_event_solve_sound z Hz) as [Hl Hm].
  split; [exact Hl |].
  rewrite first_event_gram in Hm.
  destruct z as [| z0 [| z1 z]]; cbn in Hl; try discriminate.
  unfold Vec.matvec, Vec.dot in Hm. cbn in Hm. injection Hm as Hm.
  cbn. intros H0. assert (z0 = 0) by lra. subst z0. lra.
Qed.

Lemma mixing_a_single_iterate_changes_nothing_witness :
  let num := small_numerics FW_raises in
  let X := one_sample 2 in
  let cfg := plain_config 1 2 in
  c (state_after num X [1] cfg 2) = [1] /\
  w (state_after num X [1] cfg 2)
  = plain_iterate num X [1] cfg (state_after num X [1] cfg 1).
Proof.
  destruct first_event_solution as (z & Hz & Hl & Hs).
  destruct (mixing_a_single_iterate_changes_nothing
              (small_numerics FW_raises) (one_sample 2) [1] (plain_config 1 2)
              eq_refl eq_refl (one_sample_shape 2) 1 eq_refl) as [HA HB].
  pose proof (HB eq_refl z Hz Hl Hs) as Hc.
  split; [exact Hc |].
  apply HA; rewrite Hc; [reflexivity | apply Rplus_0_r].
Defined.

Lemma balanced_Lipschitz :
  Lipschitz (small_numerics FW_raises) balanced_design (plain_config 1 2) <> 0.
Proof.
  unfold Lipschitz. cbn. unfold frobenius, Vec.dot. cbn.
  assert (Hs : 0 < sqrt (1 * 1 + 0 + (1 * 1 + 0 + 0)))
    by (apply sqrt_lt_R0; lra).
  nra.
Qed.

Lemma balanced_shape :
  Forall (fun r => length r = n_features balanced_design)
    (rows balanced_design).
Proof. repeat constructor. Qed.

Lemma stationary_point_is_kept_witness :
  let num := small_numerics FW_raises in
  let cfg := plain_config 1 2 in
  w (state_after num balanced_design balanced_labels cfg 2)
  = w (state_after num balanced_design balanced_labels cfg 0).
Proof.
  apply (stationary_point_is_kept (small_numerics FW_raises) balanced_design
           balanced_labels (plain_config 1 2) balanced_shape eq_refl 0 2).
  - exact balanced_Lipschitz.
  - change (w (state_after (small_numerics FW_raises) balanced_design
                 balanced_labels (plain_config 1 2) 0)) with [0].
    rewrite balanced_matvec. exact balanced_gradient.
  - apply Nat.le_0_l.
Defined.


Lemma first_metric_is_half_the_correlation_witness :
  let num := small_numerics FW_raises in
  let X := one_sample 2 in
  let cfg := plain_config 1 2 in
  (exists r, solver_logreg num X [1] cfg = inl r) /\
  match solver_logreg num X [1] cfg with
  | inl (_, e :: _, _) =>
      e = Vec.norm (Vec.lincomb (n_features X) (rows X)
                      (map (fun a => a / 2) [1]))
  | _ => True
  end.
Proof.
  split.
  - apply plain_config_returns. discriminate.
  - exact (first_metric_is_half_the_correlation (small_numerics FW_raises)
             (one_sample 2) [1] (plain_config 1 2) (one_sample_shape 2)).
Defined.
